(** * A RESP client: encoder, recursive decoder and receive loop

    Shallow embedding of [src/main.py]: [build_resp_command], [_parse],
    [parse_redis_response] and [send_redis_command], with the Python
    primitives they rest on ([bytes] indexing, slicing and searching with
    Python's treatment of negative and out-of-range positions, [int()] on
    [bytes], strict UTF-8 coding, decimal rendering of integers).

    Conventions.
    - A Python [bytes] object is a [list byte]; reading one element gives
      an integer in 0..255, as [buffer[idx]] does in Python.
    - A Python [str] is the list of its code points.
    - Offsets are in [Z]: the code can produce negative offsets (a bulk
      string with a large negative declared length), and Python then
      counts from the end of the buffer.
    - A Python call either returns or raises: type [outcome].
    - [_parse] is recursive on nested arrays and its offsets may move
      backwards, so it is not structurally recursive on the buffer.  The
      argument [depth] is the number of nested activations of [_parse]
      the interpreter still allows; when it is used up CPython raises
      [RecursionError], and so does the model. *)

From Stdlib Require Import ZArith List Bool Lia Strings.Byte Strings.String.
Import ListNotations.
Local Open Scope Z_scope.

(** ** Python values and exceptions *)

Definition bytes := list byte.
Definition pystr := list Z.

(** The integer a byte reads as. *)
Definition bv (b : byte) : Z := Z.of_N (Byte.to_N b).

Definition byte_of_Z (z : Z) : byte :=
  match Byte.of_N (Z.to_N z) with
  | Some b => b
  | None => x00
  end.

(** [len(x)] *)
Definition len {A : Type} (l : list A) : Z := Z.of_nat (List.length l).

(** ASCII literals, as bytes and as text. *)
Definition b_lit (s : string) : bytes := list_byte_of_string s.
Definition s_lit (s : string) : pystr := map bv (list_byte_of_string s).

Definition CR : byte := x0d.
Definition LF : byte := x0a.
Definition CRLF : bytes := [CR; LF].

(** What [_parse] can return: [None], a [str], an [int] or a [list]. *)
#[warnings="-register-all"]
Inductive pyval : Type :=
| PyNone : pyval
| PyStr : pystr -> pyval
| PyInt : Z -> pyval
| PyList : list pyval -> pyval.

(** The exceptions the modelled functions raise. *)
Inductive pyexc : Type :=
| ValueError_notfound : pyexc              (* bytes.index: subsection not found *)
| ValueError_int : bytes -> pyexc          (* int(): invalid literal *)
| ValueError_prefix : Z -> pyexc           (* line 62: unknown protocol prefix *)
| UnicodeDecodeError : pyexc
| UnicodeEncodeError : pyexc
| IndexError : pyexc
| RecursionError : pyexc
| UnboundLocalError : pyexc
| RuntimeError_redis : pystr -> pyexc      (* line 35: carries the server's message *)
| RuntimeError_timeout : pyexc             (* line 111 *)
| RuntimeError_refused : pyexc             (* line 113 *)
| ValueError_parse : pyexc -> bytes -> pyexc. (* line 79: wraps str(e) and the buffer *)

Inductive outcome (A : Type) : Type :=
| Return : A -> outcome A
| Raise : pyexc -> outcome A.
Arguments Return {A} _.
Arguments Raise {A} _.

Definition bind {A B : Type} (m : outcome A) (k : A -> outcome B) : outcome B :=
  match m with
  | Return a => k a
  | Raise e => Raise e
  end.

(** An optional result that raises [e] when absent. *)
Definition or_raise {A : Type} (e : pyexc) (o : option A) : outcome A :=
  match o with
  | Some a => Return a
  | None => Raise e
  end.

Notation "x <- m ;; k" := (bind m (fun x => k))
  (at level 61, m at next level, right associativity).
Notation "' p <- m ;; k" := (bind m (fun x => match x with p => k end))
  (at level 61, p pattern, m at next level, right associativity).

(** ** Sequence primitives *)

(** [buffer[i]]: a negative position counts from the end; out of range
    raises [IndexError] (here [None]). *)
Definition py_getitem (buffer : bytes) (i : Z) : option Z :=
  let j := if i <? 0 then i + len buffer else i in
  if (j <? 0) || (len buffer <=? j) then None
  else option_map bv (nth_error buffer (Z.to_nat j)).

(** How a slice bound is brought into [0, len]. *)
Definition slice_bound (n i : Z) : Z :=
  if i <? 0 then Z.max 0 (i + n) else Z.min i n.

(** [buffer[a:b]] *)
Definition py_slice (buffer : bytes) (a b : Z) : bytes :=
  let a' := slice_bound (len buffer) a in
  let b' := slice_bound (len buffer) b in
  firstn (Z.to_nat (b' - a')) (skipn (Z.to_nat a') buffer).

(** Position of the first CR LF in [l], positions counted from [base]. *)
Fixpoint find_crlf (l : bytes) (base : Z) : option Z :=
  match l with
  | [] => None
  | b :: t =>
      match t with
      | c :: _ =>
          if (bv b =? 13) && (bv c =? 10) then Some base
          else find_crlf t (base + 1)
      | [] => None
      end
  end.

(** [buffer.index(b'\r\n', start)]; [None] stands for the [ValueError]
    raised when there is no occurrence at or after [start]. *)
Definition bytes_index (buffer : bytes) (start : Z) : option Z :=
  let s := slice_bound (len buffer) start in
  if len buffer <? start then None
  else find_crlf (skipn (Z.to_nat s) buffer) s.

(** ** [int()] on bytes, base 10

    Optional ASCII white space, an optional sign, decimal digits with
    single underscores allowed between digits, optional white space.
    CPython's optional cap on the number of digits is a configurable
    interpreter setting and is taken as switched off. *)

Definition is_space (b : byte) : bool :=
  let x := bv b in ((9 <=? x) && (x <=? 13)) || (x =? 32).

Definition digit_val (b : byte) : option Z :=
  let x := bv b in
  if (48 <=? x) && (x <=? 57) then Some (x - 48) else None.

Fixpoint skip_space (l : bytes) : bytes :=
  match l with
  | b :: t => if is_space b then skip_space t else l
  | [] => []
  end.

(** Scans digits and underscores; [prev_us] tells that the byte before
    was an underscore.  Gives the value and the unread rest. *)
Fixpoint scan_digits (l : bytes) (acc : Z) (prev_us : bool) : option (Z * bytes) :=
  match l with
  | [] => if prev_us then None else Some (acc, [])
  | b :: t =>
      match digit_val b with
      | Some d => scan_digits t (acc * 10 + d) false
      | None =>
          if bv b =? 95 then
            if prev_us then None else scan_digits t acc true
          else if prev_us then None else Some (acc, l)
      end
  end.

Definition py_int (l : bytes) : option Z :=
  let l1 := skip_space l in
  let '(sign, l2) :=
    match l1 with
    | b :: t => if bv b =? 43 then (1, t)
                else if bv b =? 45 then (-1, t)
                else (1, l1)
    | [] => (1, l1)
    end in
  match l2 with
  | [] => None
  | b :: _ =>
      match digit_val b with
      | None => None
      | Some _ =>
          match scan_digits l2 0 false with
          | Some (v, rest) =>
              match skip_space rest with
              | [] => Some (sign * v)
              | _ :: _ => None
              end
          | None => None
          end
      end
  end.

(** ** UTF-8, strict, as [bytes.decode('utf-8')] and [str.encode('utf-8')] *)

Definition is_cont (x : Z) : bool := (128 <=? x) && (x <=? 191).

Definition in_range (lo hi x : Z) : bool := (lo <=? x) && (x <=? hi).

Definition cons_opt {A : Type} (a : A) (o : option (list A)) : option (list A) :=
  option_map (cons a) o.

(** Bounds of the second byte of a three-byte form: no overlong forms
    after E0, no surrogates after ED. *)
Definition second3 (x0 : Z) : Z * Z :=
  if x0 =? 224 then (160, 191)
  else if x0 =? 237 then (128, 159)
  else (128, 191).

(** Bounds of the second byte of a four-byte form: no overlong forms
    after F0, nothing above U+10FFFF after F4. *)
Definition second4 (x0 : Z) : Z * Z :=
  if x0 =? 240 then (144, 191)
  else if x0 =? 244 then (128, 143)
  else (128, 191).

Fixpoint utf8_decode (l : bytes) : option pystr :=
  match l with
  | [] => Some []
  | b0 :: t0 =>
      let x0 := bv b0 in
      if x0 <? 128 then cons_opt x0 (utf8_decode t0)
      else if in_range 194 223 x0 then
        match t0 with
        | b1 :: t1 =>
            let x1 := bv b1 in
            if is_cont x1
            then cons_opt ((x0 - 192) * 64 + (x1 - 128)) (utf8_decode t1)
            else None
        | _ => None
        end
      else if in_range 224 239 x0 then
        match t0 with
        | b1 :: b2 :: t2 =>
            let x1 := bv b1 in
            let x2 := bv b2 in
            if in_range (fst (second3 x0)) (snd (second3 x0)) x1 && is_cont x2
            then cons_opt ((x0 - 224) * 4096 + (x1 - 128) * 64 + (x2 - 128))
                          (utf8_decode t2)
            else None
        | _ => None
        end
      else if in_range 240 244 x0 then
        match t0 with
        | b1 :: b2 :: b3 :: t3 =>
            let x1 := bv b1 in
            let x2 := bv b2 in
            let x3 := bv b3 in
            if in_range (fst (second4 x0)) (snd (second4 x0)) x1
               && is_cont x2 && is_cont x3
            then cons_opt ((x0 - 240) * 262144 + (x1 - 128) * 4096
                           + (x2 - 128) * 64 + (x3 - 128))
                          (utf8_decode t3)
            else None
        | _ => None
        end
      else None
  end.

(** The bytes of one code point; [None] for a surrogate or a value that
    is no code point ([UnicodeEncodeError]). *)
Definition utf8_encode_cp (c : Z) : option bytes :=
  if c <? 0 then None
  else if c <? 128 then Some [byte_of_Z c]
  else if c <? 2048 then
    Some [byte_of_Z (192 + c / 64); byte_of_Z (128 + c mod 64)]
  else if c <? 65536 then
    if in_range 55296 57343 c then None
    else Some [byte_of_Z (224 + c / 4096);
               byte_of_Z (128 + (c / 64) mod 64);
               byte_of_Z (128 + c mod 64)]
  else if c <? 1114112 then
    Some [byte_of_Z (240 + c / 262144);
          byte_of_Z (128 + (c / 4096) mod 64);
          byte_of_Z (128 + (c / 64) mod 64);
          byte_of_Z (128 + c mod 64)]
  else None.

Fixpoint utf8_encode (s : pystr) : option bytes :=
  match s with
  | [] => Some []
  | c :: t =>
      match utf8_encode_cp c, utf8_encode t with
      | Some bs, Some rest => Some (bs ++ rest)
      | _, _ => None
      end
  end.

(** ** Text primitives of the encoder *)

(** Decimal digits of a natural number, least significant first. *)
Fixpoint digits_lsd (fuel : nat) (n : Z) : list Z :=
  match fuel with
  | O => []
  | S f => (n mod 10) :: (if n <? 10 then [] else digits_lsd f (n / 10))
  end.

Definition digit_cp (d : Z) : Z := 48 + d.

(** [str(n)] for [0 <= n]: a number below [2^k] has at most [k] digits. *)
Definition str_of_nonneg (n : Z) : pystr :=
  map digit_cp (rev (digits_lsd (S (Z.to_nat (Z.log2 n))) n)).

(** [str(n)], which is what an f-string field [{n}] renders.  As for
    [int()], the interpreter's cap on the number of digits is taken as
    switched off. *)
Definition str_of_int (n : Z) : pystr :=
  if n <? 0 then 45 :: str_of_nonneg (- n) else str_of_nonneg n.

(** [str.upper()].  Exact on code points below 128, which is all the
    statements below apply it to; CPython's case tables for the other
    code points are not part of the repository and those code points are
    left as they are. *)
Definition upper_cp (c : Z) : Z := if in_range 97 122 c then c - 32 else c.
Definition str_upper (s : pystr) : pystr := map upper_cp s.

Definition crlf_s : pystr := [13; 10].

(** ** The encoder (lines 5-19) *)

(** One turn of the loop of lines 15-17; [len] of a [str] counts code
    points. *)
Definition append_part (protocol part : pystr) : pystr :=
  let str_part := part in
  protocol ++ [36] ++ str_of_int (len str_part) ++ crlf_s ++ str_part ++ crlf_s.

Definition build_resp_text (command : pystr) (args : list pystr) : pystr :=
  let parts := str_upper command :: args in
  let protocol := [42] ++ str_of_int (len parts) ++ crlf_s in
  fold_left append_part parts protocol.

Definition build_resp_command (command : pystr) (args : list pystr) : outcome bytes :=
  or_raise UnicodeEncodeError (utf8_encode (build_resp_text command args)).

(** ** The decoder (lines 20-62) *)

(** The field that starts at [idx] and runs to the next CR LF, with the
    position of that CR LF: [end = buffer.index(b'\r\n', idx)] followed
    by [buffer[idx:end]]. *)
Definition read_field (buffer : bytes) (idx : Z) : outcome (bytes * Z) :=
  end_ <- or_raise ValueError_notfound (bytes_index buffer idx) ;;
  Return (py_slice buffer idx end_, end_).

Definition decode_utf8 (b : bytes) : outcome pystr :=
  or_raise UnicodeDecodeError (utf8_decode b).

Definition int_of_bytes (b : bytes) : outcome Z :=
  or_raise (ValueError_int b) (py_int b).

(** The loop of lines 55-59 over the recursive call [parse_at], which is
    [_parse] on the same buffer. *)
Fixpoint parse_elements (parse_at : Z -> outcome (pyval * Z))
  (n : nat) (idx : Z) (elements : list pyval) : outcome (pyval * Z) :=
  match n with
  | O => Return (PyList elements, idx)
  | S n' =>
      '(element, idx') <- parse_at idx ;;
      parse_elements parse_at n' idx' (elements ++ [element])
  end.

Fixpoint _parse (depth : nat) (buffer : bytes) (idx : Z) {struct depth}
  : outcome (pyval * Z) :=
  match depth with
  | O => Raise RecursionError
  | S depth' =>
      if len buffer <=? idx then Return (PyNone, idx)
      else
        prefix <- or_raise IndexError (py_getitem buffer idx) ;;
        let idx := idx + 1 in
        if prefix =? 43 then
          '(field, end_) <- read_field buffer idx ;;
          content <- decode_utf8 field ;;
          Return (PyStr content, end_ + 2)
        else if prefix =? 45 then
          '(field, end_) <- read_field buffer idx ;;
          message <- decode_utf8 field ;;
          Raise (RuntimeError_redis message)
        else if prefix =? 58 then
          '(field, end_) <- read_field buffer idx ;;
          num <- int_of_bytes field ;;
          Return (PyInt num, end_ + 2)
        else if prefix =? 36 then
          '(field, end_) <- read_field buffer idx ;;
          length <- int_of_bytes field ;;
          let idx := end_ + 2 in
          if length =? -1 then Return (PyNone, idx)
          else
            let value := py_slice buffer idx (idx + length) in
            content <- decode_utf8 value ;;
            Return (PyStr content, idx + length + 2)
        else if prefix =? 42 then
          '(field, end_) <- read_field buffer idx ;;
          count <- int_of_bytes field ;;
          let idx := end_ + 2 in
          (* range(count) is empty for a negative count *)
          parse_elements (_parse depth' buffer) (Z.to_nat count) idx []
        else Raise (ValueError_prefix prefix)
  end.

(** ** The public parser (lines 63-79) *)

(** The argument is a [str] or a [bytes] object. *)
Inductive response_arg : Type :=
| ArgStr : pystr -> response_arg
| ArgBytes : bytes -> response_arg.

(** Every exception of the [try] body is raised again as the
    [ValueError] of line 79.  When it is [encode] that raises, the name
    [buffer] read by the handler's message is still unbound. *)
Definition parse_redis_response (depth : nat) (response_buffer : response_arg)
  : outcome pyval :=
  let encoded :=
    match response_buffer with
    | ArgStr s => utf8_encode s
    | ArgBytes b => Some b
    end in
  match encoded with
  | None => Raise UnboundLocalError
  | Some buffer =>
      match _parse depth buffer 0 with
      | Return (result, _) => Return result
      | Raise e => Raise (ValueError_parse e buffer)
      end
  end.

(** ** The transport (lines 82-113)

    The peer is described by what the socket calls of one invocation
    meet: the result of [connect], whether [sendall] goes through, and
    what the successive [recv] calls give.  Once the listed events are
    used up the peer has closed the connection and [recv] returns [b''].
    A call of [recv(4096)] gives at most 4096 bytes; nothing below
    depends on that bound, so chunks are left unbounded.  Socket errors
    other than time-out and refusal are not modelled. *)

Inductive connect_result : Type :=
| Connected
| ConnectRefused      (* ConnectionRefusedError *)
| ConnectTimeout.     (* socket.timeout *)

Inductive recv_event : Type :=
| Data : bytes -> recv_event     (* recv returns these bytes *)
| RecvTimeout : recv_event.      (* recv raises socket.timeout *)

Record peer : Type := {
  on_connect : connect_result;
  sendall_times_out : bool;
  on_recv : list recv_event
}.

(** How the loop of lines 94-106 is left. *)
Inductive loop_exit : Type :=
| LoopDone : bytes -> loop_exit    (* left by [break], with the buffer *)
| LoopTimeout : loop_exit.         (* [recv] raised socket.timeout *)

(** The loop of lines 94-106, from the accumulated [buffer]; gives how
    it is left and the number of [recv] calls made.  The bare [except]
    of line 105 takes every exception of the trial parse. *)
Fixpoint recv_loop (depth : nat) (events : list recv_event) (buffer : bytes)
  : loop_exit * nat :=
  match events with
  | [] => (LoopDone buffer, 1%nat)
  | RecvTimeout :: _ => (LoopTimeout, 1%nat)
  | Data chunk :: rest =>
      match chunk with
      | [] => (LoopDone buffer, 1%nat)
      | _ :: _ =>
          let buffer := buffer ++ chunk in
          let continue := let '(e, n) := recv_loop depth rest buffer in (e, S n) in
          match _parse depth buffer 0 with
          | Return (result, idx) =>
              if idx =? len buffer then (LoopDone buffer, 1%nat) else continue
          | Raise _ => continue
          end
      end
  end.

Definition send_redis_command (depth : nat) (srv : peer)
  (command : pystr) (args : list pystr) : outcome pyval :=
  match on_connect srv with
  | ConnectRefused => Raise RuntimeError_refused
  | ConnectTimeout => Raise RuntimeError_timeout
  | Connected =>
      request <- build_resp_command command args ;;
      if sendall_times_out srv then Raise RuntimeError_timeout
      else
        match fst (recv_loop depth (on_recv srv) []) with
        | LoopTimeout => Raise RuntimeError_timeout
        | LoopDone buffer => parse_redis_response depth (ArgBytes buffer)
        end
  end.

(** Number of [recv] calls one invocation makes once the request is sent. *)
Definition recv_calls (depth : nat) (srv : peer) : nat :=
  snd (recv_loop depth (on_recv srv) []).

(** ** Vocabulary of the statements *)

(** A field without a CR LF inside. *)
Definition no_crlf (l : bytes) : Prop := find_crlf l 0 = None.

Definition is_ascii (c : Z) : Prop := 0 <= c < 128.

(** A trial parse after which the loop of lines 94-106 reads again: it
    raised, or it returned an offset that is not the buffer's length. *)
Definition reads_again (depth : nat) (buffer : bytes) : Prop :=
  match _parse depth buffer 0 with
  | Return (_, idx) => idx <> len buffer
  | Raise _ => True
  end.

(** The two frames whose payload the decoder turns into text, in their
    wire form: [+payload CR LF] and [$length CR LF payload CR LF]. *)
Inductive text_frame : Type :=
| SimpleFrame : bytes -> text_frame
| BulkFrame : bytes -> bytes -> text_frame.

Definition payload (f : text_frame) : bytes :=
  match f with
  | SimpleFrame p => p
  | BulkFrame _ p => p
  end.

Definition wire (f : text_frame) : bytes :=
  match f with
  | SimpleFrame p => b_lit "+" ++ p ++ CRLF
  | BulkFrame field p => b_lit "$" ++ field ++ CRLF ++ p ++ CRLF
  end.

(** Valid on the wire: the text of a simple string holds no CR LF; the
    length field of a bulk string reads as the payload's byte length. *)
Definition wire_valid (f : text_frame) : Prop :=
  match f with
  | SimpleFrame p => no_crlf p
  | BulkFrame field p => no_crlf field /\ py_int field = Some (len p)
  end.

(** The bytes of an ASCII text. *)
Definition ascii_bytes (s : pystr) : bytes := map byte_of_Z s.

Definition is_digit (d : Z) : Prop := 0 <= d <= 9.

(** Value of a digit list, most significant digit first. *)
Definition digits_value (ds : list Z) : Z :=
  fold_left (fun a d => a * 10 + d) ds 0.

(** Text of one element, as [append_part] adds it. *)
Definition part_text (p : pystr) : pystr :=
  [36] ++ str_of_int (len p) ++ crlf_s ++ p ++ crlf_s.

(** An array header that declares [count] elements, followed by the
    bulk strings of [parts] as the encoder writes them. *)
Definition array_of (count : Z) (parts : list pystr) : bytes :=
  b_lit "*" ++ ascii_bytes (str_of_int count) ++ CRLF
  ++ List.concat (map (fun p => ascii_bytes (part_text p)) parts).

(** ** Sample buffers and peers *)

(** [*2 CR LF $1 CR LF a CR LF]: two elements declared, one present. *)
Definition truncated_array : bytes :=
  b_lit "*2" ++ CRLF ++ b_lit "$1" ++ CRLF ++ b_lit "a" ++ CRLF.

(** The element that completes [truncated_array]. *)
Definition second_element : bytes := b_lit "$1" ++ CRLF ++ b_lit "b" ++ CRLF.

Definition error_frame : bytes := b_lit "-ERR unknown command" ++ CRLF.

Definition nil_bulk : bytes := b_lit "$-1" ++ CRLF.

Definition empty_bulk : bytes := b_lit "$0" ++ CRLF ++ CRLF.

(** Five bytes declared, two present. *)
Definition truncated_bulk : bytes := b_lit "$5" ++ CRLF ++ b_lit "ab".

(** A simple string still without its terminator. *)
Definition unterminated : bytes := b_lit "+OK".

(** U+00E9, one character, two bytes in UTF-8. *)
Definition e_acute : pystr := [233].

(** A peer that accepts the request and then sends [events]. *)
Definition serving (events : list recv_event) : peer :=
  {| on_connect := Connected; sendall_times_out := false; on_recv := events |}.

(** ** The formatter (lines 135-152)

    [repr] of a [str], which Python uses for the strings inside a list
    that is turned into text, follows the interpreter's tables of
    printable characters; it is the parameter [repr_str].  [None] as
    the result stands for the [TypeError] that subscripting an [int]
    or [None] raises. *)

(** ["sep".join(l)] *)
Fixpoint join (sep : pystr) (l : list pystr) : pystr :=
  match l with
  | [] => []
  | x :: t =>
      match t with
      | [] => x
      | _ :: _ => x ++ sep ++ join sep t
      end
  end.

(** [l[::2]] *)
Fixpoint every_other {A : Type} (l : list A) : list A :=
  match l with
  | [] => []
  | [x] => [x]
  | x :: _ :: t => x :: every_other t
  end.

(** [not response] *)
Definition falsy (response : pyval) : bool :=
  match response with
  | PyNone => true
  | PyStr s => match s with [] => true | _ :: _ => false end
  | PyInt n => n =? 0
  | PyList l => match l with [] => true | _ :: _ => false end
  end.

(** The items that slicing and [zip] go through: the elements of a
    list, the characters of a [str]. *)
Definition subscript_items (response : pyval) : option (list pyval) :=
  match response with
  | PyList l => Some l
  | PyStr s => Some (map (fun c => PyStr [c]) s)
  | PyNone => None
  | PyInt _ => None
  end.

Section Formatter.

Variable repr_str : pystr -> pystr.

(** [repr(v)] *)
Fixpoint py_repr (v : pyval) : pystr :=
  match v with
  | PyNone => s_lit "None"
  | PyStr s => repr_str s
  | PyInt n => str_of_int n
  | PyList l => s_lit "[" ++ join (s_lit ", ") (map py_repr l) ++ s_lit "]"
  end.

(** [str(v)], which is also what an f-string field renders. *)
Definition py_str (v : pyval) : pystr :=
  match v with
  | PyStr s => s
  | _ => py_repr v
  end.

(** The entries of lines 143-144, numbered from [i + 1]. *)
Fixpoint hgetall_entries (i : Z) (pairs : list (pyval * pyval)) : list pystr :=
  match pairs with
  | [] => []
  | (k, v) :: t =>
      (str_of_int (i + 1) ++ s_lit ") " ++ py_str k
       ++ [10] ++ s_lit "   " ++ py_str v)
      :: hgetall_entries (i + 1) t
  end.

Definition format_output (command : pystr) (response : pyval) : option pystr :=
  if list_eq_dec Z.eq_dec command (s_lit "HGETALL") then
    if falsy response then Some (s_lit "(empty list or set)")
    else
      match subscript_items response with
      | None => None
      | Some items =>
          Some (join [10]
                  (hgetall_entries 0
                     (combine (every_other items) (every_other (tl items)))))
      end
  else
    match response with
    | PyList l => Some (join [10] (map py_str l))
    | PyNone => Some (s_lit "(nil)")
    | _ => Some (py_str response)
    end.

End Formatter.

(** ** Further vocabulary *)

(** An integer of at most 4300 decimal digits.  Beyond that, CPython's
    default setting makes [int()] and [str()] raise [ValueError]; the
    models [py_int] and [str_of_int] carry no such cap, so a statement
    that runs them on a number the peer chooses takes this bound as a
    hypothesis. *)
Definition within_digit_cap (n : Z) : Prop := Z.abs n < 10 ^ 4300.

(** A reply that [str()] turns into text without raising: no list
    inside a list, no integer beyond the digit cap. *)
Definition scalar_reply (v : pyval) : Prop :=
  match v with
  | PyNone => True
  | PyStr _ => True
  | PyInt n => within_digit_cap n
  | PyList _ => False
  end.

Definition flat_reply (v : pyval) : Prop :=
  match v with
  | PyList l => Forall scalar_reply l
  | _ => scalar_reply v
  end.

(** A field and its value as the two strings of a reply. *)
Definition str_pair (kv : pystr * pystr) : pyval * pyval :=
  (PyStr (fst kv), PyStr (snd kv)).

(** The five marker bytes [+ - : $ *]. *)
Definition is_marker (x : Z) : Prop :=
  x = 43 \/ x = 45 \/ x = 58 \/ x = 36 \/ x = 42.

(** A first byte on which every trial parse raises: the error marker
    [-], or a byte that is no marker at all. *)
Definition never_decodes (x : Z) : Prop :=
  x <> 43 /\ x <> 58 /\ x <> 36 /\ x <> 42.

(** A code point that [str.encode('utf-8')] refuses: a surrogate.  (A
    Python [str] holds code points from 0 to 0x10FFFF only; the model's
    type is wider, so values outside that range are refused as well.) *)
Definition unencodable (c : Z) : Prop :=
  c < 0 \/ 55296 <= c <= 57343 \/ 1114112 <= c.

(** One element on the wire: the declared length is that of the text
    [p], the payload is [enc]. *)
Definition part_wire (p : pystr) (enc : bytes) : bytes :=
  b_lit "$" ++ ascii_bytes (str_of_int (len p)) ++ CRLF ++ enc ++ CRLF.

(** A reply that lists fields and values in turn, as HGETALL gives. *)
Fixpoint alternate (pairs : list (pyval * pyval)) : list pyval :=
  match pairs with
  | [] => []
  | (k, v) :: t => k :: v :: alternate t
  end.

(** [*2 CR LF $-12 CR LF]: the bulk string's declared length takes the
    offset back to 0, where the array starts. *)
Definition cyclic_array : bytes := b_lit "*2" ++ CRLF ++ b_lit "$-12" ++ CRLF.

(** * Properties *)

(** ** Lengths, bytes *)

Lemma len_nil {A : Type} : len (@nil A) = 0.
Proof. reflexivity. Qed.

Lemma len_cons {A : Type} (a : A) (l : list A) : len (a :: l) = 1 + len l.
Proof. unfold len. cbn [List.length]. lia. Qed.

Lemma len_app {A : Type} (l1 l2 : list A) : len (l1 ++ l2) = len l1 + len l2.
Proof. unfold len. rewrite length_app. lia. Qed.

Lemma len_nonneg {A : Type} (l : list A) : 0 <= len l.
Proof. unfold len. lia. Qed.

Lemma len_map {A B : Type} (f : A -> B) (l : list A) : len (map f l) = len l.
Proof. unfold len. now rewrite length_map. Qed.

Lemma to_nat_len {A : Type} (l : list A) : Z.to_nat (len l) = List.length l.
Proof. unfold len. apply Nat2Z.id. Qed.

Create Rewrite HintDb len.
#[local] Hint Rewrite @len_nil @len_cons @len_app @len_map : len.

(** Arithmetic on lengths: down to [length], then [lia]. *)
Ltac len_lia :=
  unfold len, CRLF, ascii_bytes in *;
  do 3 (cbn [List.length] in *; rewrite ?length_app, ?length_map in * );
  lia.

Lemma bv_range (b : byte) : 0 <= bv b < 256.
Proof.
  unfold bv. pose proof (Byte.to_N_bounded b). lia.
Qed.

Lemma bv_byte_of_Z (z : Z) : 0 <= z < 256 -> bv (byte_of_Z z) = z.
Proof.
  intros Hz. unfold bv, byte_of_Z.
  destruct (Byte.of_N (Z.to_N z)) as [b|] eqn:E.
  - apply Byte.to_of_N in E. rewrite E. lia.
  - apply Byte.of_N_None_iff in E. lia.
Qed.

(** ** Indexing, slicing and searching at a known position *)

Lemma py_getitem_at (pre post : bytes) (b : byte) :
  py_getitem (pre ++ b :: post) (len pre) = Some (bv b).
Proof.
  unfold py_getitem.
  pose proof (len_nonneg pre) as Hp. pose proof (len_nonneg post) as Hq.
  destruct (len pre <? 0) eqn:E; [apply Z.ltb_lt in E; lia|].
  rewrite E. cbn [orb].
  destruct (len (pre ++ b :: post) <=? len pre) eqn:E2.
  - apply Z.leb_le in E2. autorewrite with len in E2. lia.
  - rewrite to_nat_len, nth_error_app2 by lia.
    now rewrite Nat.sub_diag.
Qed.

Lemma slice_bound_in (n i : Z) : 0 <= i <= n -> slice_bound n i = i.
Proof.
  intros H. unfold slice_bound.
  destruct (i <? 0) eqn:E; [apply Z.ltb_lt in E; lia | lia].
Qed.

Lemma slice_bound_over (n i : Z) : 0 <= n <= i -> slice_bound n i = n.
Proof.
  intros H. unfold slice_bound.
  destruct (i <? 0) eqn:E; [apply Z.ltb_lt in E; lia | lia].
Qed.

(** A slice that starts right after [pre] and is [L] long, or shorter
    when the buffer ends before. *)
Lemma py_slice_after (pre rest : bytes) (L : Z) :
  0 <= L ->
  py_slice (pre ++ rest) (len pre) (len pre + L) = firstn (Z.to_nat L) rest.
Proof.
  intros HL. unfold py_slice.
  pose proof (len_nonneg pre) as Hp. pose proof (len_nonneg rest) as Hr.
  rewrite (slice_bound_in _ (len pre)) by (autorewrite with len; lia).
  rewrite to_nat_len, skipn_app, skipn_all, Nat.sub_diag. cbn [skipn app].
  destruct (Z_le_gt_dec L (len rest)) as [Hle|Hgt].
  - rewrite slice_bound_in by (autorewrite with len; lia).
    f_equal. lia.
  - rewrite slice_bound_over by (autorewrite with len; lia).
    autorewrite with len.
    rewrite !firstn_all2; trivial; unfold len in *; lia.
Qed.

Lemma py_slice_at (pre mid post : bytes) :
  py_slice (pre ++ mid ++ post) (len pre) (len pre + len mid) = mid.
Proof.
  rewrite py_slice_after by apply len_nonneg.
  rewrite to_nat_len, firstn_app, Nat.sub_diag, firstn_all. cbn [firstn].
  apply app_nil_r.
Qed.

Lemma find_crlf_base (l : bytes) (b1 b2 : Z) :
  find_crlf l b1 = None -> find_crlf l b2 = None.
Proof.
  revert b1 b2. induction l as [|x t IH]; intros b1 b2 H; [reflexivity|].
  cbn [find_crlf] in *. destruct t as [|c t']; [reflexivity|].
  destruct ((bv x =? 13) && (bv c =? 10)); [discriminate|].
  eapply IH, H.
Qed.

Lemma find_crlf_app (field post : bytes) (base : Z) :
  no_crlf field ->
  find_crlf (field ++ CRLF ++ post) base = Some (base + len field).
Proof.
  unfold no_crlf. revert base.
  induction field as [|x t IH]; intros base H.
  - cbn. f_equal. lia.
  - cbn [app find_crlf] in *. destruct t as [|c t'].
    + cbn [app CRLF]. change (bv CR) with 13.
      replace (13 =? 10) with false by reflexivity.
      rewrite andb_false_r. cbn. f_equal; lia.
    + cbn [app] in *.
      destruct ((bv x =? 13) && (bv c =? 10)); [discriminate|].
      rewrite (IH (base + 1)) by (eapply find_crlf_base, H).
      f_equal. autorewrite with len. lia.
Qed.

Lemma find_crlf_absent (l : bytes) (base : Z) :
  Forall (fun b => bv b <> 13) l -> find_crlf l base = None.
Proof.
  intros H. revert base. induction H as [|x t Hx Ht IH]; intros base; [reflexivity|].
  cbn [find_crlf]. destruct t as [|c t']; [reflexivity|].
  destruct (bv x =? 13) eqn:E; [apply Z.eqb_eq in E; contradiction|].
  cbn [andb]. apply IH.
Qed.

Lemma bytes_index_at (pre field post : bytes) :
  no_crlf field ->
  bytes_index (pre ++ field ++ CRLF ++ post) (len pre) = Some (len pre + len field).
Proof.
  intros H. unfold bytes_index.
  destruct (len (pre ++ field ++ CRLF ++ post) <? len pre) eqn:E.
  - apply Z.ltb_lt in E. len_lia.
  - rewrite slice_bound_in by len_lia.
    rewrite to_nat_len, skipn_app, skipn_all, Nat.sub_diag. cbn [skipn app].
    now apply find_crlf_app.
Qed.

Lemma read_field_at (pre field post : bytes) :
  no_crlf field ->
  read_field (pre ++ field ++ CRLF ++ post) (len pre)
  = Return (field, len pre + len field).
Proof.
  intros H. unfold read_field.
  rewrite bytes_index_at by assumption. cbn [or_raise bind].
  now rewrite py_slice_at.
Qed.

Lemma read_field_after_marker (pre field post : bytes) (m : byte) :
  no_crlf field ->
  read_field (pre ++ m :: field ++ CRLF ++ post) (len pre + 1)
  = Return (field, len pre + 1 + len field).
Proof.
  intros H.
  replace (pre ++ m :: field ++ CRLF ++ post)
    with ((pre ++ [m]) ++ field ++ CRLF ++ post)
    by (now rewrite <- app_assoc).
  replace (len pre + 1) with (len (pre ++ [m])) by len_lia.
  now apply read_field_at.
Qed.

(** ** The decoder on a frame at a known position *)

(** First steps of [_parse] on a buffer with marker [m] right after
    [pre] and a field that runs to the first CR LF. *)
Ltac parse_marker_step H :=
  cbn [_parse];
  match goal with
  | |- context [len ?b <=? len ?p] =>
      let E := fresh "E" in
      destruct (len b <=? len p) eqn:E;
      [apply Z.leb_le in E; exfalso; len_lia | clear E]
  end;
  rewrite py_getitem_at; cbn [or_raise bind];
  rewrite (read_field_after_marker _ _ _ _ H); cbn [bind].

Lemma parse_simple_at (depth : nat) (pre field post : bytes) :
  no_crlf field ->
  _parse (S depth) (pre ++ b_lit "+" ++ field ++ CRLF ++ post) (len pre)
  = content <- decode_utf8 field ;;
    Return (PyStr content, len pre + 1 + len field + 2).
Proof.
  intros H. change (b_lit "+") with ["+"%byte]. cbn [app].
  parse_marker_step H. reflexivity.
Qed.

Lemma parse_error_at (depth : nat) (pre field post : bytes) :
  no_crlf field ->
  _parse (S depth) (pre ++ b_lit "-" ++ field ++ CRLF ++ post) (len pre)
  = message <- decode_utf8 field ;; Raise (RuntimeError_redis message).
Proof.
  intros H. change (b_lit "-") with ["-"%byte]. cbn [app].
  parse_marker_step H. reflexivity.
Qed.

Lemma parse_bulk_at (depth : nat) (pre field rest : bytes) (L : Z) :
  no_crlf field -> py_int field = Some L -> 0 <= L ->
  _parse (S depth) (pre ++ b_lit "$" ++ field ++ CRLF ++ rest) (len pre)
  = content <- decode_utf8 (firstn (Z.to_nat L) rest) ;;
    Return (PyStr content, len pre + 1 + len field + 2 + L + 2).
Proof.
  intros H HL H0. change (b_lit "$") with ["$"%byte]. cbn [app].
  parse_marker_step H.
  change (bv "$"%byte =? 43) with false. change (bv "$"%byte =? 45) with false.
  change (bv "$"%byte =? 58) with false. change (bv "$"%byte =? 36) with true.
  cbv iota. unfold int_of_bytes. rewrite HL. cbn [or_raise bind].
  destruct (L =? -1) eqn:E; [apply Z.eqb_eq in E; lia | clear E].
  replace (pre ++ "$"%byte :: field ++ CRLF ++ rest)
    with ((pre ++ ["$"%byte] ++ field ++ CRLF) ++ rest)
    by (now rewrite <- !app_assoc).
  replace (len pre + 1 + len field + 2)
    with (len (pre ++ ["$"%byte] ++ field ++ CRLF)) by len_lia.
  now rewrite py_slice_after.
Qed.

Lemma parse_array_at (depth : nat) (pre field rest : bytes) (count : Z) :
  no_crlf field -> py_int field = Some count ->
  _parse (S depth) (pre ++ b_lit "*" ++ field ++ CRLF ++ rest) (len pre)
  = parse_elements (_parse depth (pre ++ b_lit "*" ++ field ++ CRLF ++ rest))
      (Z.to_nat count) (len pre + 1 + len field + 2) [].
Proof.
  intros H HL. change (b_lit "*") with ["*"%byte]. cbn [app].
  parse_marker_step H.
  change (bv "*"%byte =? 43) with false. change (bv "*"%byte =? 45) with false.
  change (bv "*"%byte =? 58) with false. change (bv "*"%byte =? 36) with false.
  change (bv "*"%byte =? 42) with true.
  cbv iota. unfold int_of_bytes. rewrite HL. reflexivity.
Qed.

(** ** Decimal numbers: rendered by the encoder, read back by [int()] *)

Lemma digits_lsd_digits (fuel : nat) (n : Z) :
  0 <= n -> Forall is_digit (digits_lsd fuel n).
Proof.
  revert n. induction fuel as [|f IH]; intros n Hn; cbn [digits_lsd].
  - constructor.
  - constructor.
    + unfold is_digit. pose proof (Z.mod_pos_bound n 10). lia.
    + destruct (n <? 10); [constructor|].
      apply IH. apply Z.div_pos; lia.
Qed.

Lemma digits_lsd_value (fuel : nat) (n : Z) :
  0 <= n < 2 ^ Z.of_nat fuel ->
  fold_right (fun d a => a * 10 + d) 0 (digits_lsd fuel n) = n.
Proof.
  revert n. induction fuel as [|f IH]; intros n Hn.
  - cbn in *. lia.
  - cbn [digits_lsd fold_right].
    destruct (n <? 10) eqn:E.
    + apply Z.ltb_lt in E. cbn [fold_right]. rewrite Z.mod_small; lia.
    + apply Z.ltb_ge in E. rewrite IH.
      * pose proof (Z.div_mod n 10). lia.
      * rewrite Nat2Z.inj_succ, Z.pow_succ_r in Hn by lia.
        split; [apply Z.div_pos; lia|].
        apply Z.div_lt_upper_bound; lia.
Qed.

Lemma str_of_int_digits (n : Z) :
  0 <= n ->
  exists ds, str_of_int n = map digit_cp ds /\ ds <> []
             /\ Forall is_digit ds /\ digits_value ds = n.
Proof.
  intros Hn. unfold str_of_int.
  destruct (n <? 0) eqn:E; [apply Z.ltb_lt in E; lia | clear E].
  unfold str_of_nonneg.
  set (fuel := S (Z.to_nat (Z.log2 n))).
  exists (rev (digits_lsd fuel n)). repeat split.
  - subst fuel. cbn [digits_lsd]. intros H.
    apply (f_equal (@List.length Z)) in H. rewrite length_rev in H.
    cbn in H. discriminate.
  - apply Forall_rev. now apply digits_lsd_digits.
  - unfold digits_value.
    rewrite <- (rev_involutive (digits_lsd fuel n)) at 1.
    rewrite rev_involutive.
    rewrite <- (fold_left_rev_right (fun d a => a * 10 + d)).
    rewrite rev_involutive. apply digits_lsd_value.
    subst fuel. rewrite Nat2Z.inj_succ, Z2Nat.id by apply Z.log2_nonneg.
    destruct (Z.eq_dec n 0) as [->|Hz]; [cbn; lia|].
    pose proof (Z.log2_spec n). lia.
Qed.

Lemma digit_val_digit (d : Z) :
  is_digit d -> digit_val (byte_of_Z (digit_cp d)) = Some d.
Proof.
  unfold is_digit, digit_cp, digit_val. intros H.
  rewrite bv_byte_of_Z by lia.
  destruct ((48 <=? 48 + d) && (48 + d <=? 57)) eqn:E.
  - f_equal. lia.
  - apply andb_false_iff in E. destruct E as [E|E]; apply Z.leb_gt in E; lia.
Qed.

Lemma scan_digits_digits (ds : list Z) (acc : Z) :
  Forall is_digit ds ->
  scan_digits (ascii_bytes (map digit_cp ds)) acc false
  = Some (fold_left (fun a d => a * 10 + d) ds acc, []).
Proof.
  intros H. revert acc. induction H as [|d t Hd Ht IH]; intros acc.
  - reflexivity.
  - cbn [map ascii_bytes scan_digits fold_left].
    rewrite digit_val_digit by assumption. apply IH.
Qed.

Lemma py_int_digits (ds : list Z) :
  ds <> [] -> Forall is_digit ds ->
  py_int (ascii_bytes (map digit_cp ds)) = Some (digits_value ds).
Proof.
  intros Hne H. destruct ds as [|d t]; [contradiction|].
  pose proof (scan_digits_digits (d :: t) 0 H) as Hscan.
  inversion H as [|? ? Hd Ht]; subst.
  pose proof (digit_val_digit d Hd) as Hdv.
  assert (Hb : bv (byte_of_Z (digit_cp d)) = 48 + d)
    by (unfold digit_cp; apply bv_byte_of_Z; unfold is_digit in Hd; lia).
  unfold py_int. cbn [map ascii_bytes skip_space] in *.
  unfold is_space. rewrite Hb.
  unfold is_digit in Hd.
  replace ((9 <=? 48 + d) && (48 + d <=? 13) || (48 + d =? 32)) with false
    by (symmetry; apply orb_false_iff; split;
        [apply andb_false_iff; right; apply Z.leb_gt; lia | apply Z.eqb_neq; lia]).
  rewrite Hb.
  replace (48 + d =? 43) with false by (symmetry; apply Z.eqb_neq; lia).
  replace (48 + d =? 45) with false by (symmetry; apply Z.eqb_neq; lia).
  rewrite Hdv, Hscan. cbn [skip_space]. f_equal.
  unfold digits_value. lia.
Qed.

Lemma py_int_str_of_int (n : Z) :
  0 <= n -> py_int (ascii_bytes (str_of_int n)) = Some n.
Proof.
  intros Hn. destruct (str_of_int_digits n Hn) as (ds & -> & Hne & Hd & Hv).
  rewrite py_int_digits by assumption. now rewrite Hv.
Qed.

Lemma str_of_int_ascii (n : Z) : 0 <= n -> Forall is_ascii (str_of_int n).
Proof.
  intros Hn. destruct (str_of_int_digits n Hn) as (ds & -> & _ & Hd & _).
  apply Forall_map. eapply Forall_impl; [|exact Hd].
  unfold is_digit, is_ascii, digit_cp. intros; lia.
Qed.

Lemma str_of_int_no_crlf (n : Z) : 0 <= n -> no_crlf (ascii_bytes (str_of_int n)).
Proof.
  intros Hn. destruct (str_of_int_digits n Hn) as (ds & -> & _ & Hd & _).
  apply find_crlf_absent. unfold ascii_bytes. rewrite !Forall_map.
  eapply Forall_impl; [|exact Hd].
  unfold is_digit, digit_cp. intros d H. rewrite bv_byte_of_Z; lia.
Qed.

(** ** UTF-8 on ASCII text *)

Lemma utf8_encode_ascii (s : pystr) :
  Forall is_ascii s -> utf8_encode s = Some (ascii_bytes s).
Proof.
  induction 1 as [|c t Hc Ht IH]; [reflexivity|].
  cbn [utf8_encode ascii_bytes map]. rewrite IH.
  unfold utf8_encode_cp, is_ascii in *.
  destruct (c <? 0) eqn:E0; [apply Z.ltb_lt in E0; lia|].
  destruct (c <? 128) eqn:E1; [reflexivity | apply Z.ltb_ge in E1; lia].
Qed.

Lemma utf8_decode_ascii (s : pystr) :
  Forall is_ascii s -> utf8_decode (ascii_bytes s) = Some s.
Proof.
  induction 1 as [|c t Hc Ht IH]; [reflexivity|].
  cbn [utf8_decode ascii_bytes map]. unfold is_ascii in Hc.
  rewrite bv_byte_of_Z by lia.
  destruct (c <? 128) eqn:E1; [| apply Z.ltb_ge in E1; lia].
  fold (ascii_bytes t). now rewrite IH.
Qed.

(** ** The encoder's output *)

Lemma fold_left_append_part (parts : list pystr) (protocol : pystr) :
  fold_left append_part parts protocol
  = protocol ++ List.concat (map part_text parts).
Proof.
  revert protocol. induction parts as [|p t IH]; intros protocol.
  - cbn. now rewrite app_nil_r.
  - cbn [fold_left map List.concat]. rewrite IH. unfold append_part, part_text.
    now rewrite <- !app_assoc.
Qed.

Lemma part_text_ascii (p : pystr) : Forall is_ascii p -> Forall is_ascii (part_text p).
Proof.
  intros Hp. unfold part_text, crlf_s.
  apply Forall_app; split; [repeat constructor; unfold is_ascii; lia|].
  apply Forall_app; split; [apply str_of_int_ascii, len_nonneg|].
  apply Forall_app; split; [repeat constructor; unfold is_ascii; lia|].
  apply Forall_app; split; [assumption|].
  repeat constructor; unfold is_ascii; lia.
Qed.

Lemma upper_ascii (s : pystr) : Forall is_ascii s -> Forall is_ascii (str_upper s).
Proof.
  intros H. unfold str_upper. apply Forall_map.
  eapply Forall_impl; [|exact H].
  unfold is_ascii, upper_cp, in_range. intros c Hc.
  destruct ((97 <=? c) && (c <=? 122)) eqn:E; [|lia].
  apply andb_true_iff in E. destruct E as [E1 E2].
  apply Z.leb_le in E1. lia.
Qed.

Lemma ascii_bytes_part (p : pystr) :
  ascii_bytes (part_text p)
  = b_lit "$" ++ ascii_bytes (str_of_int (len p)) ++ CRLF ++ ascii_bytes p ++ CRLF.
Proof.
  unfold part_text, ascii_bytes. now rewrite !map_app.
Qed.

(** The encoder raises nothing on ASCII text, and its bytes are the
    array header followed by one bulk string per element. *)
Lemma build_resp_command_ascii (command : pystr) (args : list pystr) :
  Forall is_ascii command -> Forall (Forall is_ascii) args ->
  build_resp_command command args
  = Return (b_lit "*" ++ ascii_bytes (str_of_int (1 + len args)) ++ CRLF
            ++ List.concat (map (fun p => ascii_bytes (part_text p))
                           (str_upper command :: args))).
Proof.
  intros Hc Ha. unfold build_resp_command, build_resp_text.
  rewrite fold_left_append_part, len_cons.
  assert (Hparts : Forall (Forall is_ascii) (str_upper command :: args))
    by (constructor; [now apply upper_ascii | assumption]).
  rewrite utf8_encode_ascii.
  - cbn [or_raise]. f_equal. unfold ascii_bytes.
    rewrite !map_app, concat_map, map_map, <- !app_assoc. reflexivity.
  - apply Forall_app; split.
    + apply Forall_app; split; [repeat constructor; unfold is_ascii; lia|].
      apply Forall_app; split.
      * apply str_of_int_ascii. pose proof (len_nonneg args). lia.
      * unfold crlf_s. repeat constructor; unfold is_ascii; lia.
    + apply Forall_concat, Forall_map.
      eapply Forall_impl; [|exact Hparts]. apply part_text_ascii.
Qed.

(** ** Decoding what the encoder wrote *)

Lemma parse_part_at (depth : nat) (pre post : bytes) (p : pystr) :
  Forall is_ascii p ->
  _parse (S depth) (pre ++ ascii_bytes (part_text p) ++ post) (len pre)
  = Return (PyStr p, len pre + len (ascii_bytes (part_text p))).
Proof.
  intros Hp. rewrite ascii_bytes_part, <- !app_assoc.
  rewrite (parse_bulk_at depth pre _ _ (len p)).
  - unfold ascii_bytes at 2. rewrite <- (len_map byte_of_Z p), to_nat_len.
    fold (ascii_bytes p).
    rewrite firstn_app, Nat.sub_diag, firstn_all. cbn [firstn].
    rewrite app_nil_r. unfold decode_utf8.
    rewrite utf8_decode_ascii by assumption. cbn [or_raise bind].
    change (b_lit "$") with ["$"%byte]. do 2 f_equal. len_lia.
  - apply str_of_int_no_crlf, len_nonneg.
  - apply py_int_str_of_int, len_nonneg.
  - apply len_nonneg.
Qed.

(** At or past the end of the buffer [_parse] gives [None] and leaves
    the offset where it is. *)
Lemma parse_past_end (depth : nat) (buffer : bytes) (idx : Z) :
  len buffer <= idx -> _parse (S depth) buffer idx = Return (PyNone, idx).
Proof.
  intros H. cbn [_parse].
  destruct (len buffer <=? idx) eqn:E; [reflexivity|].
  apply Z.leb_gt in E. lia.
Qed.

(** Past the end of the buffer the array loop adds one [None] per turn. *)
Lemma parse_elements_past_end (depth : nat) (buffer : bytes) (n : nat) :
  forall (idx : Z) (elements : list pyval),
  len buffer <= idx ->
  parse_elements (_parse (S depth) buffer) n idx elements
  = Return (PyList (elements ++ repeat PyNone n), idx).
Proof.
  induction n as [|n IH]; intros idx elements H.
  - cbn. now rewrite app_nil_r.
  - cbn [parse_elements repeat]. rewrite parse_past_end by assumption.
    cbn [bind]. rewrite IH by assumption. now rewrite <- app_assoc.
Qed.

(** The array loop over the encoder's elements, run for [extra] turns
    more than there are elements in the buffer. *)
Lemma parse_elements_parts (depth : nat) (parts : list pystr) (extra : nat) :
  Forall (Forall is_ascii) parts ->
  forall (pre : bytes) (elements : list pyval),
  parse_elements
    (_parse (S depth)
       (pre ++ List.concat (map (fun p => ascii_bytes (part_text p)) parts)))
    (List.length parts + extra) (len pre) elements
  = Return (PyList (elements ++ map PyStr parts ++ repeat PyNone extra),
            len pre + len (List.concat (map (fun p => ascii_bytes (part_text p)) parts))).
Proof.
  induction 1 as [|p t Hp Ht IH]; intros pre elements.
  - cbn [List.length map List.concat Nat.add app].
    rewrite app_nil_r, parse_elements_past_end by lia.
    do 2 f_equal. change (len (@nil byte)) with 0. lia.
  - cbn [List.length parse_elements map List.concat Nat.add].
    rewrite parse_part_at by assumption. cbn [bind].
    specialize (IH (pre ++ ascii_bytes (part_text p)) (elements ++ [PyStr p])).
    rewrite <- !app_assoc in IH. rewrite len_app in IH. rewrite IH.
    cbn [app]. do 2 f_equal. len_lia.
Qed.

(** An array whose header declares [extra] elements more than the
    buffer holds decodes to the elements present followed by [extra]
    times [None], at the offset of the end of the buffer. *)
Lemma parse_array_of (depth : nat) (parts : list pystr) (extra : nat) :
  Forall (Forall is_ascii) parts ->
  _parse (S (S depth)) (array_of (len parts + Z.of_nat extra) parts) 0
  = Return (PyList (map PyStr parts ++ repeat PyNone extra),
            len (array_of (len parts + Z.of_nat extra) parts)).
Proof.
  intros Hparts. unfold array_of.
  set (count := len parts + Z.of_nat extra).
  set (field := ascii_bytes (str_of_int count)).
  set (body := List.concat (map (fun p => ascii_bytes (part_text p)) parts)).
  assert (Hpos : 0 <= count) by (subst count; pose proof (len_nonneg parts); lia).
  pose proof (parse_array_at (S depth) [] field body count
                (str_of_int_no_crlf _ Hpos) (py_int_str_of_int _ Hpos)) as H.
  cbn [app] in H. change (len []) with 0 in H. rewrite H.
  replace (Z.to_nat count) with (List.length parts + extra)%nat
    by (subst count; unfold len; lia).
  pose proof (parse_elements_parts depth parts extra Hparts
                (b_lit "*" ++ field ++ CRLF) []) as HE.
  fold body in HE. rewrite <- !app_assoc in HE.
  change (b_lit "*") with ["*"%byte] in *. cbn [app] in *.
  replace (0 + 1 + len field + 2) with (len ("*"%byte :: field ++ CRLF)) by len_lia.
  rewrite HE. do 2 f_equal. len_lia.
Qed.

(** ** The decoder's outcomes *)

(** C9. Decoding [$-1 CR LF] gives the absent value at offset 5;
    decoding [$0 CR LF CR LF] gives a present string of length zero, at
    offset 6; the two values differ. *)
Theorem C9_nil_bulk_is_not_empty_bulk (depth : nat) :
  _parse (S depth) nil_bulk 0 = Return (PyNone, 5)
  /\ _parse (S depth) empty_bulk 0 = Return (PyStr [], 6)
  /\ PyNone <> PyStr [].
Proof.
  repeat split; try reflexivity. discriminate.
Qed.

(** C6, as the code has it. At an offset at or past the end of the
    buffer the decoder raises nothing and returns [None] with the offset
    unchanged. *)
Theorem C6_out_of_data_returns_none (depth : nat) (buffer : bytes) (idx : Z) :
  len buffer <= idx ->
  _parse (S depth) buffer idx = Return (PyNone, idx).
Proof.
  apply parse_past_end.
Qed.

Lemma C6_out_of_data_returns_none_witness :
  _parse 1 nil_bulk 5 = Return (PyNone, 5).
Proof.
  apply (C6_out_of_data_returns_none 0 nil_bulk 5). vm_compute. discriminate.
Defined.

(** C6 as stated fails: running out of data at offset 5 of [$-1 CR LF]
    has the very outcome of decoding the nil bulk string from offset 0,
    and the public parser answers [None] for the empty buffer as for the
    nil bulk string. *)
Lemma C6_counterexample :
  len nil_bulk <= 5
  /\ _parse 1 nil_bulk 5 = _parse 1 nil_bulk 0
  /\ parse_redis_response 1 (ArgBytes []) = parse_redis_response 1 (ArgBytes nil_bulk).
Proof.
  repeat split. vm_compute. discriminate.
Qed.

(** C1 fails on the code. When the header of an array declares [extra]
    elements more than the buffer holds, the decoder reports no
    shortage: it returns the elements present followed by [extra] times
    [None], at the offset of the end of the buffer.  The receive loop,
    given these bytes by its first read, takes the response as complete
    and reads no further.  [extra] from 1 on is the truncated array. *)
Theorem C1_truncated_array_padded_with_none (depth : nat)
  (parts : list pystr) (extra : nat) (rest : list recv_event) :
  Forall (Forall is_ascii) parts ->
  _parse (S (S depth)) (array_of (len parts + Z.of_nat extra) parts) 0
  = Return (PyList (map PyStr parts ++ repeat PyNone extra),
            len (array_of (len parts + Z.of_nat extra) parts))
  /\ recv_loop (S (S depth))
       (Data (array_of (len parts + Z.of_nat extra) parts) :: rest) []
     = (LoopDone (array_of (len parts + Z.of_nat extra) parts), 1%nat).
Proof.
  intros Hparts. pose proof (parse_array_of depth parts extra Hparts) as H.
  split; [exact H|].
  cbn [recv_loop]. unfold array_of at 1. change (b_lit "*") with ["*"%byte].
  cbn [app].
  change ("*"%byte :: ascii_bytes (str_of_int (len parts + Z.of_nat extra)) ++ CRLF
          ++ List.concat (map (fun p => ascii_bytes (part_text p)) parts))
    with (array_of (len parts + Z.of_nat extra) parts).
  rewrite H. now rewrite Z.eqb_refl.
Qed.

(** The instance [*2 CR LF $1 CR LF a CR LF]: the caller of
    [send_redis_command] would get the second element with one more
    read, and gets [None] in its place. *)
Lemma C1_truncated_array_padded_with_none_witness :
  _parse 2 truncated_array 0
  = Return (PyList [PyStr (s_lit "a"); PyNone], len truncated_array)
  /\ recv_loop 2 [Data truncated_array; Data second_element] []
     = (LoopDone truncated_array, 1%nat).
Proof.
  apply (C1_truncated_array_padded_with_none 0 [s_lit "a"] 1 [Data second_element]).
  vm_compute. repeat constructor; discriminate.
Defined.

Lemma truncated_array_reaches_caller :
  send_redis_command 2 (serving [Data truncated_array; Data second_element])
    (s_lit "LRANGE") [s_lit "k"; s_lit "0"; s_lit "-1"]
  = Return (PyList [PyStr (s_lit "a"); PyNone]).
Proof.
  reflexivity.
Qed.

(** C2, as the code has it. On a well-formed error frame whose text is
    valid UTF-8 the decoder returns no value: it raises the error that
    carries the text.  The public parser raises it again as its parse
    failure, which wraps it. *)
Theorem C2_error_frame_raises (depth : nat) (pre text post : bytes)
  (message : pystr) :
  no_crlf text -> utf8_decode text = Some message ->
  _parse (S depth) (pre ++ b_lit "-" ++ text ++ CRLF ++ post) (len pre)
  = Raise (RuntimeError_redis message)
  /\ parse_redis_response (S depth) (ArgBytes (b_lit "-" ++ text ++ CRLF ++ post))
     = Raise (ValueError_parse (RuntimeError_redis message)
                (b_lit "-" ++ text ++ CRLF ++ post)).
Proof.
  intros Hn Hd. split.
  - rewrite parse_error_at by assumption.
    unfold decode_utf8. now rewrite Hd.
  - unfold parse_redis_response.
    pose proof (parse_error_at depth [] text post Hn) as H.
    cbn [app] in H. change (len []) with 0 in H. rewrite H.
    unfold decode_utf8. now rewrite Hd.
Qed.

Lemma C2_error_frame_raises_witness :
  _parse 1 ([] ++ b_lit "-" ++ b_lit "ERR" ++ CRLF ++ []) (len (@nil byte))
  = Raise (RuntimeError_redis (s_lit "ERR"))
  /\ parse_redis_response 1 (ArgBytes (b_lit "-" ++ b_lit "ERR" ++ CRLF ++ []))
     = Raise (ValueError_parse (RuntimeError_redis (s_lit "ERR"))
                (b_lit "-" ++ b_lit "ERR" ++ CRLF ++ [])).
Proof.
  apply (C2_error_frame_raises 0 [] (b_lit "ERR") [] (s_lit "ERR")); reflexivity.
Defined.

(** C2 as stated fails: on [-ERR unknown command CR LF] the decoder
    returns nothing at any depth, and the public parser reports a parse
    failure. *)
Lemma C2_counterexample :
  ~ (exists depth r, _parse depth error_frame 0 = Return r)
  /\ parse_redis_response 1 (ArgBytes error_frame)
     = Raise (ValueError_parse (RuntimeError_redis (s_lit "ERR unknown command"))
                error_frame).
Proof.
  split; [|reflexivity].
  intros (depth & r & H). destruct depth as [|d]; vm_compute in H; discriminate.
Qed.

(** C5, as the code has it. For a bulk string with declared length
    [0 <= L] the decoder never reports a shortage: it takes the [L]
    bytes after the length field's CR LF, or what is left of them, and
    returns the offset [L + 2] past that CR LF.  With fewer than [L + 2]
    bytes left that offset lies beyond the end of the buffer; otherwise
    the payload has exactly [L] bytes and the offset is within the
    buffer, right after the two bytes that follow the payload. *)
Theorem C5_bulk_offset_past_declared_length (depth : nat)
  (pre field rest : bytes) (L : Z) :
  no_crlf field -> py_int field = Some L -> 0 <= L ->
  _parse (S depth) (pre ++ b_lit "$" ++ field ++ CRLF ++ rest) (len pre)
  = (content <- decode_utf8 (firstn (Z.to_nat L) rest) ;;
     Return (PyStr content, len pre + 1 + len field + 2 + L + 2))
  /\ (len rest < L + 2 ->
      len (pre ++ b_lit "$" ++ field ++ CRLF ++ rest)
      < len pre + 1 + len field + 2 + L + 2)
  /\ (L + 2 <= len rest ->
      len (firstn (Z.to_nat L) rest) = L
      /\ len pre + 1 + len field + 2 + L + 2
         <= len (pre ++ b_lit "$" ++ field ++ CRLF ++ rest)).
Proof.
  intros Hn Hi HL. split; [now apply parse_bulk_at|].
  change (b_lit "$") with ["$"%byte].
  split; [intros H; len_lia|].
  intros H. split; [|len_lia].
  unfold len in *. rewrite length_firstn. lia.
Qed.

Lemma C5_bulk_offset_past_declared_length_witness :
  _parse 1 ([] ++ b_lit "$" ++ b_lit "2" ++ CRLF ++ (b_lit "ab" ++ CRLF)) (len (@nil byte))
  = (content <- decode_utf8 (firstn (Z.to_nat 2) (b_lit "ab" ++ CRLF)) ;;
     Return (PyStr content, len (@nil byte) + 1 + len (b_lit "2") + 2 + 2 + 2)).
Proof.
  apply (C5_bulk_offset_past_declared_length 0 [] (b_lit "2") (b_lit "ab" ++ CRLF) 2);
    [reflexivity | reflexivity | lia].
Defined.

(** C5 as stated fails: on [$5 CR LF ab] the decoder returns the two
    bytes that are there as the payload, and the public parser hands
    them to the caller. *)
Lemma C5_counterexample :
  _parse 1 truncated_bulk 0 = Return (PyStr (s_lit "ab"), 11)
  /\ parse_redis_response 1 (ArgBytes truncated_bulk) = Return (PyStr (s_lit "ab")).
Proof.
  split; reflexivity.
Qed.

(** C10. A simple string or bulk string that is valid on the wire comes
    back from the public parser as the text its payload decodes to in
    UTF-8, and as a parse failure when the payload is not valid UTF-8. *)
Theorem C10_payload_is_decoded_text (depth : nat) (f : text_frame) (post : bytes) :
  wire_valid f ->
  parse_redis_response (S depth) (ArgBytes (wire f ++ post))
  = match utf8_decode (payload f) with
    | Some text => Return (PyStr text)
    | None => Raise (ValueError_parse UnicodeDecodeError (wire f ++ post))
    end.
Proof.
  intros Hv. unfold parse_redis_response.
  destruct f as [p | field p]; cbn [wire payload wire_valid] in *.
  - rewrite <- !app_assoc.
    pose proof (parse_simple_at depth [] p post Hv) as H.
    cbn [app] in H. change (len []) with 0 in H. cbn [app]. rewrite H.
    unfold decode_utf8. now destruct (utf8_decode p).
  - destruct Hv as [Hn Hi]. rewrite <- !app_assoc.
    pose proof (parse_bulk_at depth [] field (p ++ CRLF ++ post) (len p) Hn Hi
                  (len_nonneg p)) as H.
    cbn [app] in H. change (len []) with 0 in H. cbn [app]. rewrite H.
    rewrite to_nat_len, firstn_app, Nat.sub_diag, firstn_all. cbn [firstn].
    rewrite app_nil_r. unfold decode_utf8. now destruct (utf8_decode p).
Qed.

Lemma C10_payload_is_decoded_text_witness :
  parse_redis_response 1 (ArgBytes (wire (BulkFrame (b_lit "1") [xff]) ++ []))
  = Raise (ValueError_parse UnicodeDecodeError (wire (BulkFrame (b_lit "1") [xff]) ++ [])).
Proof.
  apply (C10_payload_is_decoded_text 0 (BulkFrame (b_lit "1") [xff]) []).
  split; reflexivity.
Defined.

(** ** The receive loop *)

(** As long as each trial parse raises or stops short of the buffer's
    end, the loop takes chunk after chunk. *)
Lemma recv_loop_reads_again (depth : nat) (chunks : list bytes) :
  Forall (fun c => c <> []) chunks ->
  forall (rest : list recv_event) (buffer : bytes),
  (forall k, (1 <= k <= List.length chunks)%nat ->
             reads_again depth (buffer ++ List.concat (firstn k chunks))) ->
  recv_loop depth (map Data chunks ++ rest) buffer
  = (fst (recv_loop depth rest (buffer ++ List.concat chunks)),
     (List.length chunks + snd (recv_loop depth rest (buffer ++ List.concat chunks)))%nat).
Proof.
  induction 1 as [|c t Hc Ht IH]; intros rest buffer Hk.
  - cbn. rewrite app_nil_r. now destruct (recv_loop depth rest buffer).
  - cbn [map app recv_loop List.concat List.length].
    destruct c as [|b c']; [contradiction|].
    assert (IH' : recv_loop depth (map Data t ++ rest) (buffer ++ b :: c')
                  = (fst (recv_loop depth rest (buffer ++ (b :: c') ++ List.concat t)),
                     (List.length t
                      + snd (recv_loop depth rest (buffer ++ (b :: c') ++ List.concat t)))%nat)).
    { rewrite IH.
      - now rewrite <- app_assoc.
      - intros k Hlt. specialize (Hk (S k)).
        cbn [firstn List.concat List.length] in Hk.
        rewrite <- app_assoc. apply Hk. lia. }
    specialize (Hk 1%nat). cbn [firstn List.concat List.length] in Hk.
    rewrite app_nil_r in Hk. unfold reads_again in Hk.
    destruct (_parse depth (buffer ++ b :: c') 0) as [[v idx]|e].
    + destruct (idx =? len (buffer ++ b :: c')) eqn:E.
      * apply Z.eqb_eq in E. exfalso. apply Hk; [lia | exact E].
      * now rewrite IH'.
    + now rewrite IH'.
Qed.




(** C8, as the code has it. When the peer closes while no trial parse
    has consumed the whole accumulated buffer, the loop ends after that
    read and the call gives what the public parser gives on the bytes
    received so far, a value or its parse failure. *)
Theorem C8_close_gives_final_parse (depth : nat) (srv : peer)
  (command : pystr) (args : list pystr) (request : bytes) (chunks : list bytes) :
  on_connect srv = Connected -> sendall_times_out srv = false ->
  build_resp_command command args = Return request ->
  on_recv srv = map Data chunks ->
  Forall (fun c => c <> []) chunks ->
  (forall k, (1 <= k <= List.length chunks)%nat ->
             reads_again depth (List.concat (firstn k chunks))) ->
  send_redis_command depth srv command args
  = parse_redis_response depth (ArgBytes (List.concat chunks))
  /\ recv_calls depth srv = S (List.length chunks).
Proof.
  intros Hc Hs Hb Hr Hne Hk.
  pose proof (recv_loop_reads_again depth chunks Hne [] [] Hk) as H.
  rewrite app_nil_r in H. cbn [app recv_loop fst snd] in H.
  unfold send_redis_command, recv_calls.
  rewrite Hc, Hb, Hs, Hr, H. cbn [bind fst snd]. split; [reflexivity | lia].
Qed.

Lemma C8_close_gives_final_parse_witness :
  send_redis_command 2 (serving (map Data [truncated_bulk])) (s_lit "GET") [s_lit "k"]
  = parse_redis_response 2 (ArgBytes (List.concat [truncated_bulk]))
  /\ recv_calls 2 (serving (map Data [truncated_bulk])) = 2%nat.
Proof.
  eapply (C8_close_gives_final_parse 2 (serving (map Data [truncated_bulk]))
            (s_lit "GET") [s_lit "k"] _ [truncated_bulk]);
    try reflexivity.
  - repeat constructor. discriminate.
  - intros k Hk. assert (k = 1%nat) as -> by (cbn in Hk; lia).
    vm_compute. discriminate.
Defined.

(** C8 as stated fails.  A peer that closes at once gets the caller
    [None]; one that closes after [$5 CR LF ab] gets the caller the
    text [ab]; one that closes after [+OK] gets the caller the parse
    failure of the public parser. *)
Lemma C8_counterexample :
  send_redis_command 2 (serving []) (s_lit "GET") [s_lit "k"] = Return PyNone
  /\ reads_again 2 truncated_bulk
  /\ send_redis_command 2 (serving [Data truncated_bulk]) (s_lit "GET") [s_lit "k"]
     = Return (PyStr (s_lit "ab"))
  /\ reads_again 2 unterminated
  /\ send_redis_command 2 (serving [Data unterminated]) (s_lit "GET") [s_lit "k"]
     = Raise (ValueError_parse ValueError_notfound unterminated).
Proof.
  repeat split; try reflexivity. vm_compute. discriminate.
Qed.

(** ** Encoder and decoder together *)

(** C3, as the code has it. For a command and arguments of ASCII text,
    empty arguments included, the encoder raises nothing and decoding
    its output gives the list of the command in upper case followed by
    the arguments, with the whole output consumed. *)
Theorem C3_roundtrip_upper_cased_command (depth : nat) (command : pystr)
  (args : list pystr) :
  Forall is_ascii command -> Forall (Forall is_ascii) args ->
  exists request,
    build_resp_command command args = Return request
    /\ _parse (S (S depth)) request 0
       = Return (PyList (map PyStr (str_upper command :: args)), len request).
Proof.
  intros Hc Ha. rewrite build_resp_command_ascii by assumption.
  eexists. split; [reflexivity|].
  assert (Hparts : Forall (Forall is_ascii) (str_upper command :: args))
    by (constructor; [now apply upper_ascii | assumption]).
  pose proof (parse_array_of depth _ 0 Hparts) as H.
  unfold array_of in H. rewrite app_nil_r in H.
  replace (len (str_upper command :: args) + Z.of_nat 0) with (1 + len args) in H
    by len_lia.
  exact H.
Qed.

Lemma C3_roundtrip_upper_cased_command_witness :
  exists request,
    build_resp_command (s_lit "set") [s_lit "foo"; s_lit ""] = Return request
    /\ _parse 2 request 0
       = Return (PyList (map PyStr (str_upper (s_lit "set") :: [s_lit "foo"; s_lit ""])),
                 len request).
Proof.
  apply (C3_roundtrip_upper_cased_command 0 (s_lit "set") [s_lit "foo"; s_lit ""]);
    vm_compute; repeat constructor; discriminate.
Defined.

(** C3 as stated fails.  The command [get] comes back as [GET]; and
    with the argument U+00E9 the decoder raises on the encoder's
    output. *)
Lemma C3_counterexample :
  (request <- build_resp_command (s_lit "get") [] ;; _parse 2 request 0)
  = Return (PyList [PyStr (s_lit "GET")], 13)
  /\ PyList [PyStr (s_lit "GET")] <> PyList (map PyStr (s_lit "get" :: []))
  /\ (request <- build_resp_command (s_lit "GET") [e_acute] ;; _parse 2 request 0)
     = Raise UnicodeDecodeError.
Proof.
  repeat split; try reflexivity. vm_compute. discriminate.
Qed.

(** C4 fails on the code. For the argument U+00E9 the encoder declares
    length 1, the number of characters, and emits the two bytes C3 A9
    as the payload. *)
Theorem C4_length_prefix_counts_characters :
  build_resp_command (s_lit "GET") [e_acute]
  = Return (b_lit "*2" ++ CRLF ++ b_lit "$3" ++ CRLF ++ b_lit "GET" ++ CRLF
            ++ b_lit "$1" ++ CRLF ++ [xc3; xa9] ++ CRLF)
  /\ utf8_encode e_acute = Some [xc3; xa9]
  /\ len e_acute = 1
  /\ len [xc3; xa9] = 2.
Proof.
  repeat split; reflexivity.
Qed.

(** * Further properties of the decoder *)

Lemma find_crlf_prefix (a b : bytes) (base : Z) :
  find_crlf (a ++ b) base = None -> find_crlf a base = None.
Proof.
  revert base. induction a as [|x t IH]; intros base H; [reflexivity|].
  cbn [app find_crlf] in *. destruct t as [|c t']; [reflexivity|].
  cbn [app] in H.
  destruct ((bv x =? 13) && (bv c =? 10)); [discriminate|].
  apply IH, H.
Qed.

Lemma find_crlf_snoc_cr (field : bytes) (base : Z) :
  find_crlf field base = None -> find_crlf (field ++ [CR]) base = None.
Proof.
  revert base. induction field as [|x t IH]; intros base H; [reflexivity|].
  cbn [app find_crlf] in *. destruct t as [|c t'].
  - cbn [app]. change (bv CR =? 10) with false. now rewrite andb_false_r.
  - cbn [app] in *.
    destruct ((bv x =? 13) && (bv c =? 10)); [discriminate|].
    apply IH, H.
Qed.

(** What comes before the end of a field's terminator holds no CR LF. *)
Lemma proper_prefix_no_crlf (field q l : bytes) :
  no_crlf field -> field ++ CRLF = q ++ l -> l <> [] -> no_crlf q.
Proof.
  unfold no_crlf. intros Hn He Hl.
  destruct (exists_last Hl) as (l' & x & ->).
  change CRLF with ([CR] ++ [LF]) in He. rewrite !app_assoc in He.
  apply app_inj_tail in He. destruct He as [He _].
  apply (find_crlf_prefix q l'). rewrite <- He.
  now apply find_crlf_snoc_cr.
Qed.

Lemma bytes_index_none (pre rest : bytes) (m : byte) :
  no_crlf rest -> bytes_index (pre ++ m :: rest) (len pre + 1) = None.
Proof.
  intros H. unfold bytes_index.
  replace (pre ++ m :: rest) with ((pre ++ [m]) ++ rest) by (now rewrite <- app_assoc).
  replace (len pre + 1) with (len (pre ++ [m])) by len_lia.
  destruct (len ((pre ++ [m]) ++ rest) <? len (pre ++ [m])) eqn:E; [reflexivity|].
  rewrite slice_bound_in by len_lia.
  rewrite to_nat_len, skipn_app, skipn_all, Nat.sub_diag. cbn [skipn app].
  eapply find_crlf_base, H.
Qed.

(** After any of the five markers, a buffer without CR LF makes
    [bytes.index] raise. *)
Lemma parse_no_terminator (depth : nat) (pre rest : bytes) (m : byte) :
  is_marker (bv m) -> no_crlf rest ->
  _parse (S depth) (pre ++ m :: rest) (len pre) = Raise ValueError_notfound.
Proof.
  intros Hm Hn. cbn [_parse].
  destruct (len (pre ++ m :: rest) <=? len pre) eqn:E;
    [apply Z.leb_le in E; exfalso; len_lia | clear E].
  rewrite py_getitem_at. cbn [or_raise bind].
  unfold read_field. rewrite bytes_index_none by assumption. cbn [or_raise bind].
  destruct (bv m =? 43) eqn:E1; [reflexivity|].
  destruct (bv m =? 45) eqn:E2; [reflexivity|].
  destruct (bv m =? 58) eqn:E3; [reflexivity|].
  destruct (bv m =? 36) eqn:E4; [reflexivity|].
  destruct (bv m =? 42) eqn:E5; [reflexivity|].
  apply Z.eqb_neq in E1, E2, E3, E4, E5. unfold is_marker in Hm. lia.
Qed.

(** X1. A frame without terminator. For each of the five markers, when
    no CR LF follows the marker the decoder raises the [ValueError] of
    [bytes.index], and the public parser reports its parse failure. *)
Theorem missing_terminator_raises (depth : nat) (rest : bytes) (m : byte) :
  is_marker (bv m) -> no_crlf rest ->
  _parse (S depth) (m :: rest) 0 = Raise ValueError_notfound
  /\ parse_redis_response (S depth) (ArgBytes (m :: rest))
     = Raise (ValueError_parse ValueError_notfound (m :: rest)).
Proof.
  intros Hm Hn. pose proof (parse_no_terminator depth [] rest m Hm Hn) as H.
  cbn [app] in H. change (len []) with 0 in H.
  split; [exact H|]. unfold parse_redis_response. now rewrite H.
Qed.

Lemma missing_terminator_raises_witness :
  _parse 1 ("$"%byte :: b_lit "12") 0 = Raise ValueError_notfound
  /\ parse_redis_response 1 (ArgBytes ("$"%byte :: b_lit "12"))
     = Raise (ValueError_parse ValueError_notfound ("$"%byte :: b_lit "12")).
Proof.
  apply (missing_terminator_raises 0 (b_lit "12") "$"%byte).
  - right. right. right. left. reflexivity.
  - reflexivity.
Defined.

Lemma parse_integer_at (depth : nat) (pre field post : bytes) :
  no_crlf field ->
  _parse (S depth) (pre ++ b_lit ":" ++ field ++ CRLF ++ post) (len pre)
  = num <- int_of_bytes field ;;
    Return (PyInt num, len pre + 1 + len field + 2).
Proof.
  intros H. change (b_lit ":") with [":"%byte]. cbn [app].
  parse_marker_step H. reflexivity.
Qed.

(** [int()] reads back what [str()] writes, for every integer. *)
Lemma py_int_str_of_any_int (n : Z) : py_int (ascii_bytes (str_of_int n)) = Some n.
Proof.
  destruct (Z_le_gt_dec 0 n) as [Hn|Hn]; [now apply py_int_str_of_int|].
  unfold str_of_int. destruct (n <? 0) eqn:E; [|apply Z.ltb_ge in E; lia].
  assert (Hm : 0 <= - n) by lia.
  destruct (str_of_int_digits (- n) Hm) as (ds & Hs & Hne & Hd & Hv).
  unfold str_of_int in Hs.
  destruct (- n <? 0) eqn:E'; [apply Z.ltb_lt in E'; lia|].
  rewrite Hs. destruct ds as [|d t]; [contradiction|].
  pose proof (scan_digits_digits (d :: t) 0 Hd) as Hscan.
  inversion Hd as [|? ? Hd0 Ht]; subst.
  pose proof (digit_val_digit d Hd0) as Hdv.
  unfold py_int. cbn [map ascii_bytes skip_space] in *.
  change (is_space (byte_of_Z 45)) with false. cbv iota.
  change (bv (byte_of_Z 45) =? 43) with false.
  change (bv (byte_of_Z 45) =? 45) with true. cbv iota.
  rewrite Hdv, Hscan. cbn [skip_space]. f_equal.
  unfold digits_value in Hv. lia.
Qed.

(** X2. Integers. An integer frame whose field is the decimal text of
    [n], negative numbers included, decodes to [n], with the offset
    right after the terminator, for every [n] of at most 4300 digits,
    which is as far as the interpreter's [int()] goes by default. *)
Theorem integer_frame_round_trip (depth : nat) (pre post : bytes) (n : Z) :
  within_digit_cap n ->
  _parse (S depth)
    (pre ++ b_lit ":" ++ ascii_bytes (str_of_int n) ++ CRLF ++ post) (len pre)
  = Return (PyInt n, len pre + 1 + len (str_of_int n) + 2).
Proof.
  intros _.
  assert (Hn : no_crlf (ascii_bytes (str_of_int n))).
  { destruct (Z_le_gt_dec 0 n) as [H|H]; [now apply str_of_int_no_crlf|].
    unfold str_of_int. destruct (n <? 0) eqn:E; [|apply Z.ltb_ge in E; lia].
    assert (Hm : 0 <= - n) by lia.
    pose proof (str_of_int_no_crlf _ Hm) as Hno.
    unfold str_of_int in Hno.
    destruct (- n <? 0) eqn:E'; [apply Z.ltb_lt in E'; lia|].
    unfold no_crlf in *. cbn [ascii_bytes map find_crlf].
    fold (ascii_bytes (str_of_nonneg (- n))).
    destruct (ascii_bytes (str_of_nonneg (- n))) as [|c t] eqn:Ed; [reflexivity|].
    change (bv (byte_of_Z 45) =? 13) with false. cbn [andb].
    eapply find_crlf_base, Hno. }
  rewrite parse_integer_at by assumption.
  unfold int_of_bytes. rewrite py_int_str_of_any_int. cbn [or_raise bind].
  unfold ascii_bytes. now rewrite len_map.
Qed.

Lemma integer_frame_round_trip_witness :
  _parse 1 (b_lit "+OK" ++ b_lit ":" ++ ascii_bytes (str_of_int (-42)) ++ CRLF ++ [])
    (len (b_lit "+OK"))
  = Return (PyInt (-42), len (b_lit "+OK") + 1 + len (str_of_int (-42)) + 2).
Proof.
  apply (integer_frame_round_trip 0 (b_lit "+OK") [] (-42)).
  vm_compute. reflexivity.
Defined.

(** X3. A field that is no number. When [int()] refuses the field of an
    integer frame the decoder raises its [ValueError], which the public
    parser reports as a parse failure. *)
Theorem integer_frame_not_a_number (depth : nat) (field post : bytes) :
  no_crlf field -> py_int field = None ->
  parse_redis_response (S depth) (ArgBytes (b_lit ":" ++ field ++ CRLF ++ post))
  = Raise (ValueError_parse (ValueError_int field)
             (b_lit ":" ++ field ++ CRLF ++ post)).
Proof.
  intros Hn Hi. unfold parse_redis_response.
  pose proof (parse_integer_at depth [] field post Hn) as H.
  cbn [app] in H. change (len []) with 0 in H. rewrite H.
  unfold int_of_bytes. now rewrite Hi.
Qed.

Lemma integer_frame_not_a_number_witness :
  parse_redis_response 1 (ArgBytes (b_lit ":" ++ b_lit "1.5" ++ CRLF ++ []))
  = Raise (ValueError_parse (ValueError_int (b_lit "1.5"))
             (b_lit ":" ++ b_lit "1.5" ++ CRLF ++ [])).
Proof.
  apply (integer_frame_not_a_number 0 (b_lit "1.5") []); reflexivity.
Defined.

(** X4. The nil array. An array whose declared count is -1, 0 or any
    other number that is not positive decodes to the empty list: the
    loop makes no turn, and nil is not told apart from empty. *)
Theorem array_count_not_positive_is_empty_list (depth : nat)
  (pre field rest : bytes) (count : Z) :
  no_crlf field -> py_int field = Some count -> count <= 0 ->
  _parse (S depth) (pre ++ b_lit "*" ++ field ++ CRLF ++ rest) (len pre)
  = Return (PyList [], len pre + 1 + len field + 2).
Proof.
  intros Hn Hi Hc. rewrite (parse_array_at depth pre field rest count Hn Hi).
  replace (Z.to_nat count) with 0%nat by lia. reflexivity.
Qed.

Lemma array_count_not_positive_is_empty_list_witness :
  _parse 1 ([] ++ b_lit "*" ++ b_lit "-1" ++ CRLF ++ []) (len (@nil byte))
  = Return (PyList [], len (@nil byte) + 1 + len (b_lit "-1") + 2).
Proof.
  apply (array_count_not_positive_is_empty_list 0 [] (b_lit "-1") [] (-1));
    [reflexivity | reflexivity | lia].
Defined.

Lemma py_slice_backward (buffer : bytes) (a b : Z) :
  0 <= b <= a -> a <= len buffer -> py_slice buffer a b = [].
Proof.
  intros H1 H2. unfold py_slice.
  rewrite !slice_bound_in by lia.
  replace (Z.to_nat (b - a)) with 0%nat by lia. reflexivity.
Qed.

(** X5. Negative lengths. A bulk string whose declared length [L] is
    below -1 is accepted: while the position [L] bytes before the
    payload's start is still in the buffer, the decoder returns the
    empty string and the offset [L + 2] from that start, which is not
    beyond it; the decoder has moved backwards or stood still. *)
Theorem bulk_negative_length_moves_back (depth : nat)
  (pre field rest : bytes) (L : Z) :
  no_crlf field -> py_int field = Some L -> L < -1 ->
  0 <= len pre + 1 + len field + 2 + L ->
  _parse (S depth) (pre ++ b_lit "$" ++ field ++ CRLF ++ rest) (len pre)
  = Return (PyStr [], len pre + 1 + len field + 2 + L + 2)
  /\ len pre + 1 + len field + 2 + L + 2 <= len pre + 1 + len field + 2.
Proof.
  intros H HL Hneg Hpos. split; [|lia].
  change (b_lit "$") with ["$"%byte]. cbn [app].
  parse_marker_step H.
  change (bv "$"%byte =? 43) with false. change (bv "$"%byte =? 45) with false.
  change (bv "$"%byte =? 58) with false. change (bv "$"%byte =? 36) with true.
  cbv iota. unfold int_of_bytes. rewrite HL. cbn [or_raise bind].
  destruct (L =? -1) eqn:E; [apply Z.eqb_eq in E; lia | clear E].
  rewrite py_slice_backward by len_lia. reflexivity.
Qed.

Lemma bulk_negative_length_moves_back_witness :
  _parse 1 (b_lit "+OK" ++ b_lit "$" ++ b_lit "-5" ++ CRLF ++ []) (len (b_lit "+OK"))
  = Return (PyStr [], len (b_lit "+OK") + 1 + len (b_lit "-5") + 2 + -5 + 2)
  /\ len (b_lit "+OK") + 1 + len (b_lit "-5") + 2 + -5 + 2
     <= len (b_lit "+OK") + 1 + len (b_lit "-5") + 2.
Proof.
  apply (bulk_negative_length_moves_back 0 (b_lit "+OK") (b_lit "-5") [] (-5));
    [reflexivity | reflexivity | lia | vm_compute; discriminate].
Defined.

(** ** The recursion limit *)

Lemma parse_elements_mono (f g : Z -> outcome (pyval * Z)) (n : nat) :
  (forall i r, f i = r -> r <> Raise RecursionError -> g i = r) ->
  forall idx elements r,
  parse_elements f n idx elements = r -> r <> Raise RecursionError ->
  parse_elements g n idx elements = r.
Proof.
  intros Hfg. induction n as [|n IH]; intros idx elements r H Hr.
  - exact H.
  - cbn [parse_elements] in *.
    destruct (f idx) as [[el idx']|e] eqn:Ef.
    + rewrite (Hfg idx _ Ef) by discriminate. cbn [bind] in *.
      now apply IH.
    + cbn [bind] in H. subst r.
      rewrite (Hfg idx _ Ef) by assumption. reflexivity.
Qed.

(** X6. The recursion limit. An outcome other than [RecursionError] does
    not depend on the limit: a larger limit gives the same outcome. *)
Theorem outcome_independent_of_recursion_limit (depth extra : nat)
  (buffer : bytes) (idx : Z) (r : outcome (pyval * Z)) :
  _parse depth buffer idx = r -> r <> Raise RecursionError ->
  _parse (depth + extra) buffer idx = r.
Proof.
  assert (Hstep : forall d b i r0,
             _parse d b i = r0 -> r0 <> Raise RecursionError ->
             _parse (S d) b i = r0).
  { induction d as [|d IH]; intros b i r0 H Hr.
    - cbn in H. subst r0. contradiction.
    - cbn [_parse] in H. remember (S d) as d1 eqn:Ed1. cbn [_parse].
      destruct (len b <=? i); [exact H|].
      destruct (py_getitem b i) as [prefix|]; cbn [or_raise bind] in *; [|exact H].
      destruct (prefix =? 43); [exact H|].
      destruct (prefix =? 45); [exact H|].
      destruct (prefix =? 58); [exact H|].
      destruct (prefix =? 36); [exact H|].
      destruct (prefix =? 42); [|exact H].
      destruct (read_field b (i + 1)) as [[field e]|x]; cbn [bind] in *; [|exact H].
      destruct (int_of_bytes field) as [count|x]; cbn [bind] in *; [|exact H].
      subst d1. eapply parse_elements_mono; [|exact H|exact Hr].
      intros j rj. apply IH. }
  intros H Hr. rewrite Nat.add_comm.
  induction extra as [|k IHk]; [exact H|].
  cbn [Nat.add]. now apply Hstep.
Qed.

Lemma outcome_independent_of_recursion_limit_witness :
  _parse (2 + 5) truncated_array 0
  = Return (PyList [PyStr (s_lit "a"); PyNone], 11).
Proof.
  apply (outcome_independent_of_recursion_limit 2 5 truncated_array 0);
    [reflexivity | discriminate].
Defined.

Lemma py_slice_from_end (buffer : bytes) :
  py_slice buffer (len buffer) (-2) = [].
Proof.
  unfold py_slice. pose proof (len_nonneg buffer) as H.
  rewrite (slice_bound_in _ (len buffer)) by lia.
  unfold slice_bound. change (-2 <? 0) with true. cbv iota.
  replace (Z.to_nat (Z.max 0 (-2 + len buffer) - len buffer)) with 0%nat by lia.
  reflexivity.
Qed.

(** X7. No bound on the work. Take an array that declares two elements
    or more and whose first element is a bulk string, the last thing in
    the buffer, with a declared length that brings the offset back to
    0.  The second element is then the array itself, and at every
    recursion limit the decoder ends in [RecursionError]. *)
Theorem backward_length_exhausts_every_limit (depth : nat)
  (f1 f2 : bytes) (count : Z) :
  no_crlf f1 -> no_crlf f2 -> py_int f1 = Some count -> 2 <= count ->
  py_int f2
  = Some (- len (b_lit "*" ++ f1 ++ CRLF ++ b_lit "$" ++ f2 ++ CRLF) - 2) ->
  _parse depth (b_lit "*" ++ f1 ++ CRLF ++ b_lit "$" ++ f2 ++ CRLF) 0
  = Raise RecursionError.
Proof.
  intros H1 H2 Hc Hge HL.
  set (buffer := b_lit "*" ++ f1 ++ CRLF ++ b_lit "$" ++ f2 ++ CRLF) in *.
  induction depth as [|d IH]; [reflexivity|].
  pose proof (parse_array_at d [] f1 (b_lit "$" ++ f2 ++ CRLF) count H1 Hc) as H.
  cbn [app] in H. change (len []) with 0 in H. fold buffer in H. rewrite H.
  destruct (Z.to_nat count) as [|[|n]] eqn:En; [lia | lia |].
  cbn [parse_elements].
  destruct d as [|d']; [reflexivity|].
  assert (Hb : _parse (S d') buffer (0 + 1 + len f1 + 2) = Return (PyStr [], 0)).
  { subst buffer.
    replace (b_lit "*" ++ f1 ++ CRLF ++ b_lit "$" ++ f2 ++ CRLF)
      with ((b_lit "*" ++ f1 ++ CRLF) ++ "$"%byte :: f2 ++ CRLF ++ [])
      by (now rewrite app_nil_r, <- !app_assoc).
    replace (0 + 1 + len f1 + 2) with (len (b_lit "*" ++ f1 ++ CRLF))
      by (change (b_lit "*") with ["*"%byte]; len_lia).
    replace (b_lit "*" ++ f1 ++ CRLF ++ b_lit "$" ++ f2 ++ CRLF)
      with ((b_lit "*" ++ f1 ++ CRLF) ++ "$"%byte :: f2 ++ CRLF ++ []) in HL
      by (now rewrite app_nil_r, <- !app_assoc).
    set (pre := b_lit "*" ++ f1 ++ CRLF) in *.
    parse_marker_step H2.
    change (bv "$"%byte =? 43) with false. change (bv "$"%byte =? 45) with false.
    change (bv "$"%byte =? 58) with false. change (bv "$"%byte =? 36) with true.
    cbv iota. unfold int_of_bytes. rewrite HL. cbn [or_raise bind].
    set (whole := pre ++ "$"%byte :: f2 ++ CRLF ++ []) in *.
    assert (Hlen : len pre + 1 + len f2 + 2 = len whole) by (subst whole; len_lia).
    pose proof (len_nonneg whole) as Hnn.
    destruct (- len whole - 2 =? -1) eqn:E; [apply Z.eqb_eq in E; lia | clear E].
    rewrite Hlen.
    replace (len whole + (- len whole - 2)) with (-2) by lia.
    rewrite py_slice_from_end. reflexivity. }
  rewrite Hb. cbn [bind]. rewrite IH. reflexivity.
Qed.

Lemma backward_length_exhausts_every_limit_witness :
  _parse 1000 cyclic_array 0 = Raise RecursionError.
Proof.
  apply (backward_length_exhausts_every_limit 1000 (b_lit "2") (b_lit "-12") 2);
    [reflexivity | reflexivity | reflexivity | lia | reflexivity].
Defined.

(** * Further properties of the receive loop *)

(** The loop ends with the first trial parse that consumes the whole
    accumulated buffer. *)
Lemma recv_loop_done (depth : nat) (chunks : list bytes) :
  Forall (fun c => c <> []) chunks -> chunks <> [] ->
  forall (rest : list recv_event) (buffer : bytes) (v : pyval),
  (forall k, (1 <= k < List.length chunks)%nat ->
             reads_again depth (buffer ++ List.concat (firstn k chunks))) ->
  _parse depth (buffer ++ List.concat chunks) 0
  = Return (v, len (buffer ++ List.concat chunks)) ->
  recv_loop depth (map Data chunks ++ rest) buffer
  = (LoopDone (buffer ++ List.concat chunks), List.length chunks).
Proof.
  induction 1 as [|c t Hc Ht IH]; intros Hne rest buffer v Hk Hp; [contradiction|].
  cbn [map app recv_loop List.concat List.length] in *.
  destruct c as [|b c']; [contradiction|].
  destruct t as [|c2 t'].
  - cbn [List.concat map app] in *. rewrite app_nil_r in *.
    rewrite Hp. now rewrite Z.eqb_refl.
  - assert (IH' : recv_loop depth (map Data (c2 :: t') ++ rest) (buffer ++ b :: c')
                  = (LoopDone (buffer ++ (b :: c') ++ List.concat (c2 :: t')),
                     List.length (c2 :: t'))).
    { rewrite (IH ltac:(discriminate) rest (buffer ++ b :: c') v).
      - now rewrite <- app_assoc.
      - intros k Hlt. specialize (Hk (S k)).
        cbn [firstn List.concat List.length] in Hk.
        rewrite <- app_assoc. apply Hk. cbn [List.length] in Hlt. lia.
      - rewrite <- app_assoc. exact Hp. }
    specialize (Hk 1%nat). cbn [firstn List.concat List.length] in Hk.
    rewrite app_nil_r in Hk. unfold reads_again in Hk.
    destruct (_parse depth (buffer ++ b :: c') 0) as [[v' idx]|e].
    + destruct (idx =? len (buffer ++ b :: c')) eqn:E.
      * apply Z.eqb_eq in E. exfalso. apply Hk; [lia | exact E].
      * now rewrite IH'.
    + now rewrite IH'.
Qed.

(** X8. The loop stops when the reply is complete. When the bytes of the
    first [k] chunks are the first accumulated buffer that a trial
    parse consumes whole, the call returns the value of that parse
    after exactly [k] reads, whatever the peer would send next. *)
Theorem call_returns_first_whole_parse (depth : nat) (chunks : list bytes)
  (rest : list recv_event) (command : pystr) (args : list pystr)
  (request : bytes) (v : pyval) :
  build_resp_command command args = Return request ->
  Forall (fun c => c <> []) chunks -> chunks <> [] ->
  (forall k, (1 <= k < List.length chunks)%nat ->
             reads_again depth (List.concat (firstn k chunks))) ->
  _parse depth (List.concat chunks) 0 = Return (v, len (List.concat chunks)) ->
  send_redis_command depth (serving (map Data chunks ++ rest)) command args
  = Return v
  /\ recv_calls depth (serving (map Data chunks ++ rest)) = List.length chunks.
Proof.
  intros Hb Hne Hnn Hk Hp.
  pose proof (recv_loop_done depth chunks Hne Hnn rest [] v Hk Hp) as H.
  cbn [app] in H.
  unfold send_redis_command, recv_calls, serving.
  cbn [on_connect sendall_times_out on_recv].
  rewrite Hb, H. cbn [bind fst snd]. split; [|reflexivity].
  unfold parse_redis_response. now rewrite Hp.
Qed.

Lemma call_returns_first_whole_parse_witness :
  send_redis_command 2
    (serving (map Data [truncated_bulk; b_lit "cde" ++ CRLF] ++ [RecvTimeout]))
    (s_lit "GET") [s_lit "k"]
  = Return (PyStr (s_lit "abcde"))
  /\ recv_calls 2
       (serving (map Data [truncated_bulk; b_lit "cde" ++ CRLF] ++ [RecvTimeout]))
     = List.length [truncated_bulk; b_lit "cde" ++ CRLF].
Proof.
  eapply (call_returns_first_whole_parse 2 [truncated_bulk; b_lit "cde" ++ CRLF]
            [RecvTimeout] (s_lit "GET") [s_lit "k"]).
  - reflexivity.
  - repeat constructor; discriminate.
  - discriminate.
  - intros k Hk. assert (k = 1%nat) as -> by (cbn in Hk; lia).
    vm_compute. discriminate.
  - reflexivity.
Defined.

(** X9. A time-out discards what was received. When no trial parse has
    consumed the whole accumulated buffer and the next read times out,
    the call raises the time-out error and nothing of the bytes
    received reaches the caller. *)
Theorem timeout_before_whole_parse (depth : nat) (chunks : list bytes)
  (rest : list recv_event) (command : pystr) (args : list pystr)
  (request : bytes) :
  build_resp_command command args = Return request ->
  Forall (fun c => c <> []) chunks ->
  (forall k, (1 <= k <= List.length chunks)%nat ->
             reads_again depth (List.concat (firstn k chunks))) ->
  send_redis_command depth (serving (map Data chunks ++ RecvTimeout :: rest))
    command args
  = Raise RuntimeError_timeout.
Proof.
  intros Hb Hne Hk.
  pose proof (recv_loop_reads_again depth chunks Hne (RecvTimeout :: rest) [] Hk) as H.
  cbn [app recv_loop fst snd] in H.
  unfold send_redis_command, serving.
  cbn [on_connect sendall_times_out on_recv].
  rewrite Hb, H. reflexivity.
Qed.

Lemma timeout_before_whole_parse_witness :
  send_redis_command 2 (serving (map Data [truncated_bulk] ++ RecvTimeout :: []))
    (s_lit "GET") [s_lit "k"]
  = Raise RuntimeError_timeout.
Proof.
  eapply (timeout_before_whole_parse 2 [truncated_bulk] [] (s_lit "GET") [s_lit "k"]).
  - reflexivity.
  - repeat constructor; discriminate.
  - intros k Hk. assert (k = 1%nat) as -> by (cbn in Hk; lia).
    vm_compute. discriminate.
Defined.

(** ** Replies the loop cannot finish *)

Lemma parse_never_decodes (depth : nat) (b : byte) (rest : bytes) :
  never_decodes (bv b) -> exists e, _parse depth (b :: rest) 0 = Raise e.
Proof.
  intros (H43 & H58 & H36 & H42).
  destruct depth as [|d]; [eexists; reflexivity|].
  cbn [_parse].
  destruct (len (b :: rest) <=? 0) eqn:E;
    [apply Z.leb_le in E; exfalso; len_lia | clear E].
  pose proof (py_getitem_at [] rest b) as Hg. cbn [app] in Hg.
  change (len []) with 0 in Hg. rewrite Hg. cbn [or_raise bind].
  destruct (bv b =? 43) eqn:E1; [apply Z.eqb_eq in E1; contradiction|].
  destruct (bv b =? 45) eqn:E2.
  - destruct (read_field (b :: rest) (0 + 1)) as [[field e]|x]; cbn [bind];
      [|eexists; reflexivity].
    destruct (decode_utf8 field); cbn [bind]; eexists; reflexivity.
  - destruct (bv b =? 58) eqn:E3; [apply Z.eqb_eq in E3; contradiction|].
    destruct (bv b =? 36) eqn:E4; [apply Z.eqb_eq in E4; contradiction|].
    destruct (bv b =? 42) eqn:E5; [apply Z.eqb_eq in E5; contradiction|].
    eexists; reflexivity.
Qed.

Lemma concat_firstn_head (b : byte) (c : bytes) (t : list bytes) (k : nat) :
  (1 <= k)%nat ->
  exists tail, List.concat (firstn k ((b :: c) :: t)) = b :: tail.
Proof.
  intros Hk. destruct k as [|k']; [lia|].
  cbn [firstn List.concat app]. eexists. reflexivity.
Qed.

(** X10. Error replies and unknown markers. When the first byte received
    is the error marker [-] or no marker at all, every trial parse
    raises, so the loop never ends by itself: if the peer stays
    connected the call ends in the time-out error, and if the peer
    closes it ends in the public parser's parse failure. *)
Theorem error_reply_waits_for_close_or_timeout (depth : nat) (b : byte)
  (c : bytes) (t : list bytes) (rest : list recv_event)
  (command : pystr) (args : list pystr) (request : bytes) :
  build_resp_command command args = Return request ->
  never_decodes (bv b) -> Forall (fun c => c <> []) t ->
  send_redis_command depth
    (serving (map Data ((b :: c) :: t) ++ RecvTimeout :: rest)) command args
  = Raise RuntimeError_timeout
  /\ exists e,
       send_redis_command depth (serving (map Data ((b :: c) :: t))) command args
       = Raise (ValueError_parse e (List.concat ((b :: c) :: t))).
Proof.
  intros Hb Hnd Hne.
  assert (Hall : Forall (fun c => c <> []) ((b :: c) :: t))
    by (constructor; [discriminate | assumption]).
  assert (Hk : forall k, (1 <= k <= List.length ((b :: c) :: t))%nat ->
                         reads_again depth (List.concat (firstn k ((b :: c) :: t)))).
  { intros k [Hk1 _]. destruct (concat_firstn_head b c t k Hk1) as [tail ->].
    destruct (parse_never_decodes depth b tail Hnd) as [e He].
    unfold reads_again. now rewrite He. }
  split.
  - pose proof (recv_loop_reads_again depth _ Hall (RecvTimeout :: rest) [] Hk) as H.
    cbn [app recv_loop fst snd] in H.
    unfold send_redis_command, serving.
    cbn [on_connect sendall_times_out on_recv].
    rewrite Hb, H. reflexivity.
  - pose proof (recv_loop_reads_again depth _ Hall [] [] Hk) as H.
    rewrite app_nil_r in H. cbn [app recv_loop fst snd] in H.
    destruct (parse_never_decodes depth b (c ++ List.concat t) Hnd) as [e He].
    exists e. unfold send_redis_command, serving.
    cbn [on_connect sendall_times_out on_recv].
    rewrite Hb, H. cbn [bind fst]. unfold parse_redis_response.
    cbn [List.concat app]. now rewrite He.
Qed.

Lemma error_reply_waits_for_close_or_timeout_witness :
  send_redis_command 2
    (serving (map Data (("-"%byte :: b_lit "ERR" ++ CRLF) :: []) ++ RecvTimeout :: []))
    (s_lit "GET") [s_lit "k"]
  = Raise RuntimeError_timeout
  /\ exists e,
       send_redis_command 2
         (serving (map Data (("-"%byte :: b_lit "ERR" ++ CRLF) :: [])))
         (s_lit "GET") [s_lit "k"]
       = Raise (ValueError_parse e
                  (List.concat (("-"%byte :: b_lit "ERR" ++ CRLF) :: []))).
Proof.
  eapply (error_reply_waits_for_close_or_timeout 2 "-"%byte (b_lit "ERR" ++ CRLF)
            [] [] (s_lit "GET") [s_lit "k"]).
  - reflexivity.
  - vm_compute. repeat split; discriminate.
  - constructor.
Defined.

(** ** Replies that arrive in pieces *)

Lemma concat_firstn_split (chunks : list bytes) (k : nat) :
  Forall (fun c => c <> []) chunks -> (1 <= k < List.length chunks)%nat ->
  exists s, List.concat chunks = List.concat (firstn k chunks) ++ s
            /\ List.concat (firstn k chunks) <> [] /\ s <> [].
Proof.
  intros Hne Hk. exists (List.concat (skipn k chunks)).
  rewrite <- concat_app, firstn_skipn. split; [reflexivity|]. split.
  - destruct chunks as [|c t]; [cbn in Hk; lia|].
    destruct k as [|k']; [lia|]. cbn [firstn List.concat].
    inversion Hne as [|? ? Hc _]; subst.
    destruct c; [contradiction | discriminate].
  - destruct (skipn k chunks) as [|c t] eqn:E.
    + apply (f_equal (@List.length bytes)) in E.
      rewrite length_skipn in E. cbn in E. lia.
    + assert (Hin : In c chunks)
        by (rewrite <- (firstn_skipn k chunks), E; apply in_or_app; right; now left).
      rewrite Forall_forall in Hne. specialize (Hne c Hin).
      cbn [List.concat]. destruct c; [contradiction | discriminate].
Qed.

(** A reply [w] that parses whole, and none of whose proper beginnings
    does, reaches the caller however it is cut into chunks. *)
Lemma delivered_in_chunks (depth : nat) (w : bytes) (v : pyval)
  (chunks : list bytes) (rest : list recv_event)
  (command : pystr) (args : list pystr) (request : bytes) :
  build_resp_command command args = Return request ->
  _parse depth w 0 = Return (v, len w) -> w <> [] ->
  (forall q s, w = q ++ s -> q <> [] -> s <> [] -> reads_again depth q) ->
  Forall (fun c => c <> []) chunks -> List.concat chunks = w ->
  send_redis_command depth (serving (map Data chunks ++ rest)) command args
  = Return v
  /\ recv_calls depth (serving (map Data chunks ++ rest)) = List.length chunks.
Proof.
  intros Hb Hp Hw Hq Hne Hc. subst w.
  assert (Hnn : chunks <> []) by (intros ->; now apply Hw).
  assert (Hk : forall k, (1 <= k < List.length chunks)%nat ->
                         reads_again depth ([] ++ List.concat (firstn k chunks))).
  { intros k Hlt. destruct (concat_firstn_split chunks k Hne Hlt) as (s & He & H1 & H2).
    cbn [app]. now apply (Hq _ s). }
  pose proof (recv_loop_done depth chunks Hne Hnn rest [] v Hk Hp) as H.
  cbn [app] in H.
  unfold send_redis_command, recv_calls, serving.
  cbn [on_connect sendall_times_out on_recv].
  rewrite Hb, H. cbn [bind fst snd]. split; [|reflexivity].
  unfold parse_redis_response. now rewrite Hp.
Qed.

(** A proper beginning of [marker field CR LF] has no terminator yet. *)
Lemma line_prefix_reads_again (depth : nat) (m : byte) (field q s : bytes) :
  is_marker (bv m) -> no_crlf field ->
  m :: field ++ CRLF = q ++ s -> q <> [] -> s <> [] ->
  reads_again (S depth) q.
Proof.
  intros Hm Hn He Hq Hs. destruct q as [|m' q']; [contradiction|].
  cbn [app] in He. injection He as <- He.
  pose proof (proper_prefix_no_crlf field q' s Hn He Hs) as Hno.
  pose proof (parse_no_terminator depth [] q' m Hm Hno) as H.
  cbn [app] in H. change (len []) with 0 in H.
  unfold reads_again. now rewrite H.
Qed.

(** A proper beginning of a bulk string either has no terminator yet
    or makes the decoder return an offset past its end, or raise. *)
Lemma bulk_prefix_reads_again (depth : nat) (field p q s : bytes) :
  no_crlf field -> py_int field = Some (len p) ->
  b_lit "$" ++ field ++ CRLF ++ p ++ CRLF = q ++ s -> q <> [] -> s <> [] ->
  reads_again (S depth) q.
Proof.
  intros Hn Hi He Hq Hs. change (b_lit "$") with ["$"%byte] in *.
  destruct q as [|m' q']; [contradiction|].
  cbn [app] in He. injection He as <- He.
  assert (Hcase : forall l, q' = (field ++ CRLF) ++ l -> len l < len p + 2 ->
                            reads_again (S depth) ("$"%byte :: q')).
  { intros l -> Hl.
    pose proof (parse_bulk_at depth [] field l (len p) Hn Hi (len_nonneg p)) as H.
    change (b_lit "$") with ["$"%byte] in H. cbn [app] in H.
    change (len []) with 0 in H. rewrite <- app_assoc.
    unfold reads_again. rewrite H.
    destruct (decode_utf8 (firstn (Z.to_nat (len p)) l)); cbn [bind]; [|exact I].
    len_lia. }
  change (field ++ CR :: LF :: p ++ CRLF) with (field ++ CRLF ++ p ++ CRLF) in He.
  rewrite app_assoc in He. symmetry in He.
  apply app_eq_app in He. destruct He as (l & [[H1 H2]|[H1 H2]]).
  - apply (Hcase l H1).
    apply (f_equal (@len byte)) in H2.
    assert (0 < len s) by (destruct s; [contradiction | len_lia]).
    len_lia.
  - destruct l as [|x l'].
    + rewrite app_nil_r in H1. apply (Hcase []).
      * now rewrite app_nil_r.
      * len_lia.
    + assert (Hno : no_crlf q')
        by (apply (proper_prefix_no_crlf field q' (x :: l') Hn H1); discriminate).
      pose proof (parse_no_terminator depth [] q' "$"%byte
                    ltac:(right; right; right; left; reflexivity) Hno) as H.
      cbn [app] in H. change (len []) with 0 in H.
      unfold reads_again. now rewrite H.
Qed.

(** X11. Simple and bulk strings in pieces. A simple string or a bulk
    string that is valid on the wire, with a payload that is valid
    UTF-8, reaches the caller as its text however the peer cuts it into
    non-empty chunks, after as many reads as there are chunks and
    without waiting for what the peer does next. *)
Theorem text_frame_delivered_in_chunks (depth : nat) (f : text_frame)
  (text : pystr) (chunks : list bytes) (rest : list recv_event)
  (command : pystr) (args : list pystr) (request : bytes) :
  build_resp_command command args = Return request ->
  wire_valid f -> utf8_decode (payload f) = Some text ->
  Forall (fun c => c <> []) chunks -> List.concat chunks = wire f ->
  send_redis_command (S depth) (serving (map Data chunks ++ rest)) command args
  = Return (PyStr text)
  /\ recv_calls (S depth) (serving (map Data chunks ++ rest)) = List.length chunks.
Proof.
  intros Hb Hv Hd Hne Hc.
  apply (delivered_in_chunks (S depth) (wire f) (PyStr text) chunks rest
           command args request Hb); trivial.
  - destruct f as [p | field p]; cbn [wire payload wire_valid] in *.
    + pose proof (parse_simple_at depth [] p [] Hv) as H.
      cbn [app] in H. change (len []) with 0 in H.
      rewrite app_nil_r in H. rewrite H.
      unfold decode_utf8. rewrite Hd. cbn [or_raise bind].
      change (b_lit "+") with ["+"%byte]. do 2 f_equal. len_lia.
    + destruct Hv as [Hn Hi].
      pose proof (parse_bulk_at depth [] field (p ++ CRLF) (len p) Hn Hi
                    (len_nonneg p)) as H.
      cbn [app] in H. change (len []) with 0 in H. rewrite H.
      rewrite to_nat_len, firstn_app, Nat.sub_diag, firstn_all. cbn [firstn].
      rewrite app_nil_r. unfold decode_utf8. rewrite Hd. cbn [or_raise bind].
      change (b_lit "$") with ["$"%byte]. do 2 f_equal. len_lia.
  - destruct f; discriminate.
  - intros q s He Hq Hs.
    destruct f as [p | field p]; cbn [wire payload wire_valid] in *.
    + apply (line_prefix_reads_again depth "+"%byte p q s); trivial.
      left. reflexivity.
    + destruct Hv as [Hn Hi].
      now apply (bulk_prefix_reads_again depth field p q s).
Qed.

Lemma text_frame_delivered_in_chunks_witness :
  send_redis_command 1
    (serving (map Data [b_lit "$3"; CRLF ++ b_lit "a"; b_lit "bc" ++ [CR]; [LF]]
              ++ [RecvTimeout]))
    (s_lit "GET") [s_lit "k"]
  = Return (PyStr (s_lit "abc"))
  /\ recv_calls 1
       (serving (map Data [b_lit "$3"; CRLF ++ b_lit "a"; b_lit "bc" ++ [CR]; [LF]]
                 ++ [RecvTimeout]))
     = List.length [b_lit "$3"; CRLF ++ b_lit "a"; b_lit "bc" ++ [CR]; [LF]].
Proof.
  eapply (text_frame_delivered_in_chunks 0 (BulkFrame (b_lit "3") (b_lit "abc"))
            (s_lit "abc") _ [RecvTimeout] (s_lit "GET") [s_lit "k"]).
  - reflexivity.
  - split; reflexivity.
  - reflexivity.
  - repeat constructor; discriminate.
  - reflexivity.
Defined.

(** X12. Integers in pieces. An integer reply whose field [int()] reads
    as [n] reaches the caller as [n] however the peer cuts it into
    non-empty chunks. *)
Theorem integer_delivered_in_chunks (depth : nat) (field : bytes) (n : Z)
  (chunks : list bytes) (rest : list recv_event)
  (command : pystr) (args : list pystr) (request : bytes) :
  build_resp_command command args = Return request ->
  no_crlf field -> py_int field = Some n ->
  Forall (fun c => c <> []) chunks ->
  List.concat chunks = b_lit ":" ++ field ++ CRLF ->
  send_redis_command (S depth) (serving (map Data chunks ++ rest)) command args
  = Return (PyInt n)
  /\ recv_calls (S depth) (serving (map Data chunks ++ rest)) = List.length chunks.
Proof.
  intros Hb Hn Hi Hne Hc.
  apply (delivered_in_chunks (S depth) (b_lit ":" ++ field ++ CRLF) (PyInt n)
           chunks rest command args request Hb); trivial.
  - pose proof (parse_integer_at depth [] field [] Hn) as H.
    cbn [app] in H. change (len []) with 0 in H.
    rewrite app_nil_r in H. rewrite H.
    unfold int_of_bytes. rewrite Hi. cbn [or_raise bind].
    change (b_lit ":") with [":"%byte]. do 2 f_equal. len_lia.
  - discriminate.
  - intros q s He Hq Hs.
    apply (line_prefix_reads_again depth ":"%byte field q s); trivial.
    right. right. left. reflexivity.
Qed.

Lemma integer_delivered_in_chunks_witness :
  send_redis_command 1
    (serving (map Data [b_lit ":-4"; b_lit "2" ++ [CR]; [LF]] ++ []))
    (s_lit "DECR") [s_lit "k"]
  = Return (PyInt (-42))
  /\ recv_calls 1 (serving (map Data [b_lit ":-4"; b_lit "2" ++ [CR]; [LF]] ++ []))
     = List.length [b_lit ":-4"; b_lit "2" ++ [CR]; [LF]].
Proof.
  eapply (integer_delivered_in_chunks 0 (b_lit "-42") (-42) _ []
            (s_lit "DECR") [s_lit "k"]).
  - reflexivity.
  - reflexivity.
  - reflexivity.
  - repeat constructor; discriminate.
  - reflexivity.
Defined.

(** ** Arrays that arrive in pieces *)

(** A proper beginning of a bulk string that starts right after [pre]
    makes the decoder raise, or return an offset past the buffer's end. *)
Lemma bulk_prefix_outcome (depth : nat) (pre field p q s : bytes) :
  no_crlf field -> py_int field = Some (len p) ->
  b_lit "$" ++ field ++ CRLF ++ p ++ CRLF = q ++ s -> q <> [] -> s <> [] ->
  match _parse (S depth) (pre ++ q) (len pre) with
  | Return (_, off) => len (pre ++ q) < off
  | Raise _ => True
  end.
Proof.
  intros Hn Hi He Hq Hs. change (b_lit "$") with ["$"%byte] in *.
  destruct q as [|m' q']; [contradiction|].
  cbn [app] in He. injection He as <- He.
  assert (Hcase : forall l, q' = (field ++ CRLF) ++ l -> len l < len p + 2 ->
             match _parse (S depth) (pre ++ "$"%byte :: q') (len pre) with
             | Return (_, off) => len (pre ++ "$"%byte :: q') < off
             | Raise _ => True
             end).
  { intros l -> Hl.
    pose proof (parse_bulk_at depth pre field l (len p) Hn Hi (len_nonneg p)) as H.
    change (b_lit "$") with ["$"%byte] in H. cbn [app] in H.
    rewrite <- app_assoc. rewrite H.
    destruct (decode_utf8 (firstn (Z.to_nat (len p)) l)); cbn [bind]; [|exact I].
    len_lia. }
  change (field ++ CR :: LF :: p ++ CRLF) with (field ++ CRLF ++ p ++ CRLF) in He.
  rewrite app_assoc in He. symmetry in He.
  apply app_eq_app in He. destruct He as (l & [[H1 H2]|[H1 H2]]).
  - apply (Hcase l H1).
    apply (f_equal (@len byte)) in H2.
    assert (0 < len s) by (destruct s; [contradiction | len_lia]).
    len_lia.
  - destruct l as [|x l'].
    + rewrite app_nil_r in H1. apply (Hcase []).
      * now rewrite app_nil_r.
      * len_lia.
    + assert (Hno : no_crlf q')
        by (apply (proper_prefix_no_crlf field q' (x :: l') Hn H1); discriminate).
      rewrite (parse_no_terminator depth pre q' "$"%byte
                 ltac:(right; right; right; left; reflexivity) Hno).
      exact I.
Qed.

(** The array loop over the elements that are whole in the buffer. *)
Lemma parse_elements_skip_parts (depth : nat) (parts : list pystr) :
  Forall (Forall is_ascii) parts ->
  forall (pre post : bytes) (m : nat) (elements : list pyval),
  parse_elements
    (_parse (S depth)
       (pre ++ List.concat (map (fun p => ascii_bytes (part_text p)) parts) ++ post))
    (List.length parts + m) (len pre) elements
  = parse_elements
      (_parse (S depth)
         (pre ++ List.concat (map (fun p => ascii_bytes (part_text p)) parts) ++ post))
      m (len pre + len (List.concat (map (fun p => ascii_bytes (part_text p)) parts)))
      (elements ++ map PyStr parts).
Proof.
  induction 1 as [|p t Hp Ht IH]; intros pre post m elements.
  - cbn [List.length map List.concat Nat.add app]. rewrite app_nil_r.
    f_equal. change (len (@nil byte)) with 0. lia.
  - cbn [List.length parse_elements map List.concat Nat.add].
    rewrite <- !app_assoc, parse_part_at by assumption. cbn [bind].
    specialize (IH (pre ++ ascii_bytes (part_text p)) post m (elements ++ [PyStr p])).
    rewrite <- !app_assoc in IH. rewrite len_app in IH. rewrite IH.
    cbn [app]. f_equal. len_lia.
Qed.

(** Where a proper beginning of the elements' bytes ends: after some
    whole elements, inside the next one or right before it. *)
Lemma body_split (parts : list pystr) :
  forall r s : bytes,
  r ++ s = List.concat (map (fun p => ascii_bytes (part_text p)) parts) ->
  s <> [] ->
  exists j p partial s',
    nth_error parts j = Some p
    /\ r = List.concat (map (fun p => ascii_bytes (part_text p)) (firstn j parts))
           ++ partial
    /\ ascii_bytes (part_text p) = partial ++ s' /\ s' <> [].
Proof.
  induction parts as [|p t IH]; intros r s He Hs.
  - cbn in He. apply app_eq_nil in He. destruct He as [_ ->]. contradiction.
  - cbn [map List.concat] in He.
    assert (Hlater : forall l, List.concat (map (fun p => ascii_bytes (part_text p)) t)
                               = l ++ s ->
              exists j p0 partial s',
                nth_error (p :: t) j = Some p0
                /\ ascii_bytes (part_text p) ++ l
                   = List.concat (map (fun p => ascii_bytes (part_text p))
                                      (firstn j (p :: t))) ++ partial
                /\ ascii_bytes (part_text p0) = partial ++ s' /\ s' <> []).
    { intros l Hl. symmetry in Hl.
      destruct (IH l s Hl Hs) as (j & p0 & partial & s' & Hj & Hr & Hp & Hs').
      exists (S j), p0, partial, s'. cbn [nth_error firstn map List.concat].
      rewrite <- app_assoc, <- Hr. auto. }
    apply app_eq_app in He. destruct He as (l & [[H1 H2]|[H1 H2]]).
    + rewrite H1. now apply Hlater.
    + destruct l as [|x l'].
      * rewrite app_nil_r in H1. cbn [app] in H2. subst s.
        rewrite <- H1, <- (app_nil_r (ascii_bytes (part_text p))).
        now apply Hlater.
      * exists 0%nat, p, r, (x :: l'). cbn [nth_error firstn map List.concat app].
        repeat split; [assumption | discriminate].
Qed.

(** A proper beginning of an array of bulk strings that ends inside the
    header or inside an element does not pass for a complete reply. *)
Lemma array_prefix_reads_again (depth : nat) (parts : list pystr) (q s : bytes) :
  Forall (Forall is_ascii) parts ->
  array_of (len parts) parts = q ++ s -> q <> [] -> s <> [] ->
  (forall j, (j < List.length parts)%nat ->
             len q <> len (array_of (len parts) (firstn j parts))) ->
  reads_again (S (S depth)) q.
Proof.
  intros Hparts He Hq Hs Hb. unfold array_of in *.
  set (field := ascii_bytes (str_of_int (len parts))) in *.
  set (pb := fun p => ascii_bytes (part_text p)) in *.
  assert (Hnf : no_crlf field) by (apply str_of_int_no_crlf, len_nonneg).
  assert (Hif : py_int field = Some (len parts))
    by (apply py_int_str_of_int, len_nonneg).
  change (b_lit "*") with ["*"%byte] in *. cbn [app] in *.
  destruct q as [|m q']; [contradiction|]. injection He as <- He.
  change (field ++ CR :: LF :: List.concat (map pb parts))
    with (field ++ CRLF ++ List.concat (map pb parts)) in He.
  rewrite app_assoc in He. symmetry in He.
  apply app_eq_app in He. destruct He as (l & [[H1 H2]|[H1 H2]]).
  - (* the header is whole *)
    destruct (body_split parts l s (eq_sym H2) Hs)
      as (j & p & partial & s' & Hj & Hl & Hp & Hs').
    assert (Hjlt : (j < List.length parts)%nat)
      by (apply nth_error_Some; rewrite Hj; discriminate).
    assert (Hpartial : partial <> []).
    { intros ->. apply (Hb j Hjlt). rewrite H1, Hl, app_nil_r. fold pb. len_lia. }
    subst q' l.
    change (fun p0 : pystr => ascii_bytes (part_text p0)) with pb.
    pose proof (parse_array_at (S depth) [] field
                  (List.concat (map pb (firstn j parts)) ++ partial)
                  (len parts) Hnf Hif) as H.
    change (b_lit "*") with ["*"%byte] in H. cbn [app] in H.
    change (len []) with 0 in H. rewrite <- app_assoc.
    unfold reads_again. rewrite H. clear H.
    assert (Hfirst : Forall (Forall is_ascii) (firstn j parts)).
    { rewrite <- (firstn_skipn j parts) in Hparts.
      now apply Forall_app in Hparts. }
    replace (Z.to_nat (len parts))
      with (List.length (firstn j parts) + S (List.length parts - S j))%nat
      by (rewrite length_firstn; unfold len; lia).
    pose proof (parse_elements_skip_parts depth (firstn j parts) Hfirst
                  ("*"%byte :: field ++ CRLF) partial
                  (S (List.length parts - S j)) []) as Hskip.
    fold pb in Hskip. cbn [app] in Hskip. rewrite <- !app_assoc in Hskip.
    replace (0 + 1 + len field + 2) with (len ("*"%byte :: field ++ CRLF)) by len_lia.
    rewrite Hskip. clear Hskip. cbn [parse_elements app].
    assert (Hpfield : ascii_bytes (part_text p)
                      = b_lit "$" ++ ascii_bytes (str_of_int (len p)) ++ CRLF
                        ++ ascii_bytes p ++ CRLF) by apply ascii_bytes_part.
    assert (Hpa : Forall is_ascii p).
    { rewrite Forall_forall in Hparts. apply Hparts.
      eapply nth_error_In, Hj. }
    pose proof (bulk_prefix_outcome depth
                  ("*"%byte :: field ++ CRLF ++ List.concat (map pb (firstn j parts)))
                  (ascii_bytes (str_of_int (len p))) (ascii_bytes p) partial s'
                  (str_of_int_no_crlf _ (len_nonneg p))) as Hout.
    unfold ascii_bytes at 2 in Hout. rewrite len_map in Hout.
    specialize (Hout (py_int_str_of_int _ (len_nonneg p))).
    fold (ascii_bytes p) in Hout. rewrite <- Hpfield in Hout.
    specialize (Hout Hp Hpartial Hs').
    cbn [app] in Hout. rewrite <- !app_assoc in Hout.
    replace (len ("*"%byte :: field ++ CRLF)
             + len (List.concat (map pb (firstn j parts))))
      with (len ("*"%byte :: field ++ CRLF ++ List.concat (map pb (firstn j parts))))
      by len_lia.
    destruct (_parse (S depth)
                ("*"%byte :: field ++ CRLF ++ List.concat (map pb (firstn j parts))
                 ++ partial)
                (len ("*"%byte :: field ++ CRLF
                      ++ List.concat (map pb (firstn j parts)))))
      as [[v off]|e]; cbn [bind]; [|exact I].
    rewrite parse_elements_past_end by lia. lia.
  - (* the buffer ends inside the header, or right after it *)
    destruct l as [|x l'].
    + (* right after the header: the boundary before the first element *)
      rewrite app_nil_r in H1. cbn [app] in H2. subst s q'.
      destruct parts as [|p0 t]; [cbn in Hs; contradiction|].
      exfalso. apply (Hb 0%nat); [cbn; lia|].
      cbn [firstn map List.concat]. rewrite app_nil_r. reflexivity.
    + assert (Hno : no_crlf q')
        by (apply (proper_prefix_no_crlf field q' (x :: l') Hnf H1); discriminate).
      pose proof (parse_no_terminator (S depth) [] q' "*"%byte
                    ltac:(right; right; right; right; reflexivity) Hno) as H.
      cbn [app] in H. change (len []) with 0 in H.
      unfold reads_again. now rewrite H.
Qed.

(** X13. Arrays in pieces. An array of bulk strings of ASCII text reaches
    the caller whole, after as many reads as there are chunks, whenever
    no read ends exactly where an element would begin: right after the
    header or right after an element that is not the last. *)
Theorem array_delivered_unless_cut_between_elements (depth : nat)
  (parts : list pystr) (chunks : list bytes) (rest : list recv_event)
  (command : pystr) (args : list pystr) (request : bytes) :
  build_resp_command command args = Return request ->
  Forall (Forall is_ascii) parts ->
  Forall (fun c => c <> []) chunks ->
  List.concat chunks = array_of (len parts) parts ->
  (forall k j, (1 <= k < List.length chunks)%nat -> (j < List.length parts)%nat ->
     len (List.concat (firstn k chunks))
     <> len (array_of (len parts) (firstn j parts))) ->
  send_redis_command (S (S depth)) (serving (map Data chunks ++ rest)) command args
  = Return (PyList (map PyStr parts))
  /\ recv_calls (S (S depth)) (serving (map Data chunks ++ rest))
     = List.length chunks.
Proof.
  intros Hb Hparts Hne Hc Hcut.
  pose proof (parse_array_of depth parts 0 Hparts) as Hp.
  replace (len parts + Z.of_nat 0) with (len parts) in Hp by lia.
  cbn [repeat] in Hp. rewrite app_nil_r in Hp. rewrite <- Hc in Hp.
  assert (Hnn : chunks <> []).
  { intros ->. cbn in Hc. unfold array_of in Hc. discriminate. }
  assert (Hk : forall k, (1 <= k < List.length chunks)%nat ->
                 reads_again (S (S depth)) ([] ++ List.concat (firstn k chunks))).
  { intros k Hlt. destruct (concat_firstn_split chunks k Hne Hlt) as (s & He & H1 & H2).
    cbn [app]. apply (array_prefix_reads_again depth parts _ s); trivial.
    - now rewrite <- Hc.
    - intros j Hj. now apply Hcut. }
  pose proof (recv_loop_done (S (S depth)) chunks Hne Hnn rest []
                (PyList (map PyStr parts)) Hk Hp) as H.
  cbn [app] in H.
  unfold send_redis_command, recv_calls, serving.
  cbn [on_connect sendall_times_out on_recv].
  rewrite Hb, H. cbn [bind fst snd]. split; [|reflexivity].
  unfold parse_redis_response. now rewrite Hp.
Qed.

Lemma array_delivered_unless_cut_between_elements_witness :
  send_redis_command 2
    (serving (map Data [b_lit "*2" ++ CRLF ++ b_lit "$1";
                        CRLF ++ b_lit "a" ++ CRLF ++ second_element]
              ++ [RecvTimeout]))
    (s_lit "LRANGE") [s_lit "k"; s_lit "0"; s_lit "-1"]
  = Return (PyList (map PyStr [s_lit "a"; s_lit "b"]))
  /\ recv_calls 2
       (serving (map Data [b_lit "*2" ++ CRLF ++ b_lit "$1";
                           CRLF ++ b_lit "a" ++ CRLF ++ second_element]
                 ++ [RecvTimeout]))
     = List.length [b_lit "*2" ++ CRLF ++ b_lit "$1";
                    CRLF ++ b_lit "a" ++ CRLF ++ second_element].
Proof.
  eapply (array_delivered_unless_cut_between_elements 0 [s_lit "a"; s_lit "b"]
            _ [RecvTimeout] (s_lit "LRANGE") [s_lit "k"; s_lit "0"; s_lit "-1"]).
  - reflexivity.
  - vm_compute. repeat constructor; discriminate.
  - repeat constructor; discriminate.
  - reflexivity.
  - intros k j Hk Hj. assert (k = 1%nat) as -> by (cbn in Hk; lia).
    destruct j as [|[|j']]; [vm_compute; discriminate | vm_compute; discriminate |].
    cbn in Hj. lia.
Defined.

(** ** A reply followed by more bytes *)

Lemma parse_text_frame (depth : nat) (f : text_frame) (post : bytes)
  (text : pystr) :
  wire_valid f -> utf8_decode (payload f) = Some text ->
  _parse (S depth) (wire f ++ post) 0 = Return (PyStr text, len (wire f)).
Proof.
  intros Hv Hd. destruct f as [p | field p]; cbn [wire payload wire_valid] in *.
  - rewrite <- !app_assoc.
    pose proof (parse_simple_at depth [] p post Hv) as H.
    cbn [app] in H. change (len []) with 0 in H. cbn [app]. rewrite H.
    unfold decode_utf8. rewrite Hd. cbn [or_raise bind].
    change (b_lit "+") with ["+"%byte]. do 2 f_equal. len_lia.
  - destruct Hv as [Hn Hi]. rewrite <- !app_assoc.
    pose proof (parse_bulk_at depth [] field (p ++ CRLF ++ post) (len p) Hn Hi
                  (len_nonneg p)) as H.
    cbn [app] in H. change (len []) with 0 in H. cbn [app]. rewrite H.
    rewrite to_nat_len, firstn_app, Nat.sub_diag, firstn_all. cbn [firstn].
    rewrite app_nil_r. unfold decode_utf8. rewrite Hd. cbn [or_raise bind].
    change (b_lit "$") with ["$"%byte]. do 2 f_equal. len_lia.
Qed.

Lemma text_frame_prefix_reads_again (depth : nat) (f : text_frame) (q s : bytes) :
  wire_valid f -> wire f = q ++ s -> q <> [] -> s <> [] ->
  reads_again (S depth) q.
Proof.
  intros Hv He Hq Hs.
  destruct f as [p | field p]; cbn [wire wire_valid] in *.
  - apply (line_prefix_reads_again depth "+"%byte p q s); trivial.
    left. reflexivity.
  - destruct Hv as [Hn Hi].
    now apply (bulk_prefix_reads_again depth field p q s).
Qed.

(** When the chunks [before] stop short of the end of [w] and the next
    chunk [c] goes past it, [before] is a proper beginning of [w]. *)
Lemma stops_short (w post c : bytes) (before : list bytes) :
  len (List.concat before) < len w ->
  List.concat before ++ c = w ++ post ->
  exists l, w = List.concat before ++ l /\ l <> [] /\ c = l ++ post.
Proof.
  intros Hlt He. apply app_eq_app in He.
  destruct He as (l & [[H1 H2]|[H1 H2]]).
  - exfalso. apply (f_equal (@len byte)) in H1. rewrite len_app in H1.
    pose proof (len_nonneg l). lia.
  - exists l. repeat split; trivial.
    intros ->. rewrite app_nil_r in H1. rewrite H1 in Hlt. lia.
Qed.

(** Every trial parse of the loop when a simple or bulk string is
    completed by a chunk that brings more bytes. *)
Lemma trailing_bytes_read_again (depth : nat) (f : text_frame) (text : pystr)
  (post c : bytes) (before later : list bytes) :
  wire_valid f -> utf8_decode (payload f) = Some text ->
  Forall (fun c => c <> []) before ->
  len (List.concat before) < len (wire f) ->
  List.concat before ++ c = wire f ++ post -> post <> [] ->
  forall k, (1 <= k <= List.length (before ++ c :: later))%nat ->
  reads_again (S depth) ([] ++ List.concat (firstn k (before ++ c :: later))).
Proof.
  intros Hv Hd Hne Hlt He Hpost k [Hk1 Hk2]. cbn [app].
  destruct (stops_short _ _ _ _ Hlt He) as (l & Hw & Hl & Hc).
  rewrite firstn_app.
  destruct (Nat.le_gt_cases k (List.length before)) as [Hle|Hgt].
  - (* the string is not complete yet *)
    replace (k - List.length before)%nat with 0%nat by lia.
    cbn [firstn]. rewrite app_nil_r.
    apply (text_frame_prefix_reads_again depth f _
             (List.concat (skipn k before) ++ l)); trivial.
    + rewrite app_assoc, <- concat_app, firstn_skipn. exact Hw.
    + destruct before as [|c0 t]; [cbn in Hle; lia|].
      destruct k as [|k']; [lia|]. cbn [firstn List.concat].
      inversion Hne as [|? ? Hc0 _]; subst.
      destruct c0; [contradiction | discriminate].
    + intros H. apply app_eq_nil in H. destruct H as [_ H]. contradiction.
  - (* the string is complete and followed by more bytes *)
    rewrite firstn_all2 by lia.
    destruct (k - List.length before)%nat as [|k'] eqn:Ek; [lia|].
    cbn [firstn]. rewrite concat_app. cbn [List.concat].
    rewrite app_assoc, He, <- !app_assoc.
    unfold reads_again. rewrite (parse_text_frame depth f _ text Hv Hd).
    assert (0 < len post) by (destruct post; [contradiction | len_lia]).
    rewrite !len_app. unfold len in *. lia.
Qed.

(** X14. Bytes after the reply. When the read that completes a simple or
    bulk string, the first read or a later one, brings at least one
    byte more, no trial parse ever consumes the whole buffer: the call
    goes on reading through every later chunk, gives the string's text
    only once the peer closes, the bytes after it being dropped, and
    raises the time-out error if the peer stays connected. *)
Theorem reply_with_trailing_bytes (depth : nat) (f : text_frame)
  (text : pystr) (post c : bytes) (before later : list bytes)
  (rest : list recv_event)
  (command : pystr) (args : list pystr) (request : bytes) :
  build_resp_command command args = Return request ->
  wire_valid f -> utf8_decode (payload f) = Some text ->
  Forall (fun c => c <> []) before -> Forall (fun c => c <> []) later ->
  len (List.concat before) < len (wire f) ->
  List.concat before ++ c = wire f ++ post -> post <> [] ->
  send_redis_command (S depth)
    (serving (map Data (before ++ c :: later))) command args
  = Return (PyStr text)
  /\ recv_calls (S depth) (serving (map Data (before ++ c :: later)))
     = S (List.length (before ++ c :: later))
  /\ send_redis_command (S depth)
       (serving (map Data (before ++ c :: later) ++ RecvTimeout :: rest))
       command args
     = Raise RuntimeError_timeout.
Proof.
  intros Hb Hv Hd Hne Hnl Hlt He Hpost.
  destruct (stops_short _ _ _ _ Hlt He) as (l & Hw & Hl & Hc).
  assert (Hall : Forall (fun c => c <> []) (before ++ c :: later)).
  { apply Forall_app; split; [assumption|]. constructor; [|assumption].
    subst c. destruct l; [contradiction | discriminate]. }
  pose proof (trailing_bytes_read_again depth f text post c before later
                Hv Hd Hne Hlt He Hpost) as Hk.
  assert (Hwhole : List.concat (before ++ c :: later)
                   = wire f ++ post ++ List.concat later).
  { rewrite concat_app. cbn [List.concat].
    now rewrite app_assoc, He, <- app_assoc. }
  unfold send_redis_command, recv_calls, serving.
  cbn [on_connect sendall_times_out on_recv]. rewrite Hb. cbn [bind].
  split; [|split].
  - pose proof (recv_loop_reads_again (S depth) _ Hall [] [] Hk) as H.
    rewrite app_nil_r in H. cbn [app recv_loop fst snd] in H.
    rewrite H. cbn [fst]. unfold parse_redis_response.
    rewrite Hwhole. now rewrite (parse_text_frame depth f _ text Hv Hd).
  - pose proof (recv_loop_reads_again (S depth) _ Hall [] [] Hk) as H.
    rewrite app_nil_r in H. cbn [app recv_loop fst snd] in H.
    rewrite H. cbn [snd]. lia.
  - pose proof (recv_loop_reads_again (S depth) _ Hall (RecvTimeout :: rest) [] Hk) as H.
    cbn [app recv_loop fst snd] in H. rewrite H. reflexivity.
Qed.

Lemma reply_with_trailing_bytes_witness :
  send_redis_command 1
    (serving (map Data ([b_lit "+O"] ++ (b_lit "K" ++ CRLF ++ b_lit "+") :: [])))
    (s_lit "SET") [s_lit "k"; s_lit "v"]
  = Return (PyStr (s_lit "OK"))
  /\ recv_calls 1
       (serving (map Data ([b_lit "+O"] ++ (b_lit "K" ++ CRLF ++ b_lit "+") :: [])))
     = S (List.length ([b_lit "+O"] ++ (b_lit "K" ++ CRLF ++ b_lit "+") :: []))
  /\ send_redis_command 1
       (serving (map Data ([b_lit "+O"] ++ (b_lit "K" ++ CRLF ++ b_lit "+") :: [])
                 ++ RecvTimeout :: []))
       (s_lit "SET") [s_lit "k"; s_lit "v"]
     = Raise RuntimeError_timeout.
Proof.
  eapply (reply_with_trailing_bytes 0 (SimpleFrame (b_lit "OK")) (s_lit "OK")
            (b_lit "+") (b_lit "K" ++ CRLF ++ b_lit "+") [b_lit "+O"] [] []
            (s_lit "SET") [s_lit "k"; s_lit "v"]).
  - reflexivity.
  - reflexivity.
  - reflexivity.
  - repeat constructor; discriminate.
  - constructor.
  - vm_compute. reflexivity.
  - reflexivity.
  - discriminate.
Defined.

(** * Further properties of the encoder *)

Lemma utf8_encode_app (a b : pystr) :
  utf8_encode (a ++ b)
  = match utf8_encode a, utf8_encode b with
    | Some x, Some y => Some (x ++ y)
    | _, _ => None
    end.
Proof.
  induction a as [|c t IH]; cbn [app utf8_encode].
  - now destruct (utf8_encode b).
  - rewrite IH. destruct (utf8_encode_cp c) as [bs|]; [|reflexivity].
    destruct (utf8_encode t) as [x|]; [|reflexivity].
    destruct (utf8_encode b) as [y|]; [|reflexivity].
    now rewrite app_assoc.
Qed.

Lemma utf8_encode_cp_None (c : Z) : utf8_encode_cp c = None <-> unencodable c.
Proof.
  unfold utf8_encode_cp, unencodable, in_range.
  destruct (c <? 0) eqn:E0; [apply Z.ltb_lt in E0; intuition lia|].
  apply Z.ltb_ge in E0.
  destruct (c <? 128) eqn:E1; [apply Z.ltb_lt in E1; split; [discriminate | lia]|].
  destruct (c <? 2048) eqn:E2; [apply Z.ltb_lt in E2; split; [discriminate | lia]|].
  apply Z.ltb_ge in E2.
  destruct (c <? 65536) eqn:E3.
  - apply Z.ltb_lt in E3.
    destruct ((55296 <=? c) && (c <=? 57343)) eqn:E4.
    + apply andb_true_iff in E4. destruct E4 as [E4 E5].
      apply Z.leb_le in E4, E5. intuition lia.
    + apply andb_false_iff in E4. split; [discriminate|].
      destruct E4 as [E4|E4]; apply Z.leb_gt in E4; lia.
  - apply Z.ltb_ge in E3.
    destruct (c <? 1114112) eqn:E4.
    + apply Z.ltb_lt in E4. split; [discriminate | lia].
    + apply Z.ltb_ge in E4. intuition lia.
Qed.

Lemma utf8_encode_None (s : pystr) :
  utf8_encode s = None <-> Exists unencodable s.
Proof.
  induction s as [|c t IH]; cbn [utf8_encode].
  - split; [discriminate | intros H; inversion H].
  - rewrite Exists_cons, <- IH, <- utf8_encode_cp_None.
    destruct (utf8_encode_cp c), (utf8_encode t); split; intros H;
      try discriminate; try reflexivity; auto.
    destruct H; discriminate.
Qed.

Lemma ascii_encodable (s : pystr) : Forall is_ascii s -> ~ Exists unencodable s.
Proof.
  intros H He. apply Exists_exists in He. destruct He as (c & Hin & Hc).
  rewrite Forall_forall in H. specialize (H c Hin).
  unfold is_ascii, unencodable in *. lia.
Qed.

Lemma part_text_unencodable (p : pystr) :
  Exists unencodable (part_text p) <-> Exists unencodable p.
Proof.
  unfold part_text. rewrite !Exists_app. split.
  - intros [H|[H|[H|[H|H]]]]; trivial; exfalso;
      revert H; apply ascii_encodable;
      try (apply str_of_int_ascii, len_nonneg);
      repeat constructor; unfold is_ascii; lia.
  - intros H. right. right. right. now left.
Qed.

(** X15. The encoder's only failure. For an ASCII command, the encoder
    raises [UnicodeEncodeError] exactly when some argument holds a code
    point that UTF-8 refuses, a lone surrogate; otherwise it returns
    the request. *)
Theorem encoder_raises_only_on_surrogates (command : pystr) (args : list pystr) :
  Forall is_ascii command ->
  (build_resp_command command args = Raise UnicodeEncodeError
   <-> Exists (Exists unencodable) args)
  /\ (~ Exists (Exists unencodable) args ->
      exists request, build_resp_command command args = Return request).
Proof.
  intros Hc.
  assert (Hiff : utf8_encode (build_resp_text command args) = None
                 <-> Exists (Exists unencodable) args).
  { rewrite utf8_encode_None. unfold build_resp_text.
    rewrite fold_left_append_part, Exists_app, Exists_concat, Exists_map.
    cbn [map]. rewrite Exists_cons.
    split.
    - intros [H|[H|H]].
      + exfalso. revert H. apply ascii_encodable.
        apply Forall_app; split; [repeat constructor; unfold is_ascii; lia|].
        apply Forall_app; split.
        * apply str_of_int_ascii. apply len_nonneg.
        * unfold crlf_s. repeat constructor; unfold is_ascii; lia.
      + exfalso. apply (proj1 (part_text_unencodable _)) in H. revert H.
        apply ascii_encodable. now apply upper_ascii.
      + eapply Exists_impl; [|exact H].
        intros p. apply (proj1 (part_text_unencodable p)).
    - intros H. right. right.
      eapply Exists_impl; [|exact H].
      intros p. apply (proj2 (part_text_unencodable p)). }
  unfold build_resp_command.
  destruct (utf8_encode (build_resp_text command args)) as [request|] eqn:E;
    cbn [or_raise].
  - split.
    + split; [discriminate|]. intros H. apply Hiff in H. discriminate.
    + intros _. now exists request.
  - split.
    + split; [intros _; now apply Hiff | reflexivity].
    + intros H. exfalso. apply H. now apply Hiff.
Qed.

Lemma encoder_raises_only_on_surrogates_witness :
  (build_resp_command (s_lit "set") [s_lit "k"; [55296]] = Raise UnicodeEncodeError
   <-> Exists (Exists unencodable) [s_lit "k"; [55296]])
  /\ (~ Exists (Exists unencodable) [s_lit "k"; [55296]] ->
      exists request,
        build_resp_command (s_lit "set") [s_lit "k"; [55296]] = Return request).
Proof.
  apply (encoder_raises_only_on_surrogates (s_lit "set") [s_lit "k"; [55296]]).
  vm_compute. repeat constructor; discriminate.
Defined.

Lemma utf8_encode_cp_len (c : Z) (bs : bytes) :
  utf8_encode_cp c = Some bs -> 1 <= len bs /\ (len bs = 1 <-> is_ascii c).
Proof.
  unfold utf8_encode_cp, is_ascii.
  destruct (c <? 0) eqn:E0; [discriminate|]. apply Z.ltb_ge in E0.
  destruct (c <? 128) eqn:E1.
  { apply Z.ltb_lt in E1. intros [= <-]. change (len [byte_of_Z c]) with 1. lia. }
  apply Z.ltb_ge in E1.
  destruct (c <? 2048); [intros [= <-]; cbn; lia|].
  destruct (c <? 65536).
  { destruct (in_range 55296 57343 c); [discriminate|]. intros [= <-]. cbn. lia. }
  destruct (c <? 1114112); [intros [= <-]; cbn; lia | discriminate].
Qed.

Lemma utf8_encode_len (p : pystr) (e : bytes) :
  utf8_encode p = Some e ->
  len p <= len e /\ (len p = len e <-> Forall is_ascii p).
Proof.
  revert e. induction p as [|c t IH]; intros e; cbn [utf8_encode].
  - intros [= <-]. split; [reflexivity|]. split; [constructor | reflexivity].
  - destruct (utf8_encode_cp c) as [bs|] eqn:Ec; [|discriminate].
    destruct (utf8_encode t) as [r|] eqn:Et; [|discriminate].
    intros [= <-]. destruct (IH r eq_refl) as [IH1 IH2].
    destruct (utf8_encode_cp_len c bs Ec) as [Hc1 Hc2].
    rewrite len_cons, len_app. split; [lia|]. split.
    + intros H. constructor; [apply Hc2; lia | apply IH2; lia].
    + intros H. inversion H as [|? ? Ha Ht]; subst.
      apply Hc2 in Ha. apply IH2 in Ht. lia.
Qed.

(** X16. What the encoder declares and what it emits. For an ASCII
    command and arguments [args] with UTF-8 encodings [encs], the
    request is the array header for [1 + len(args)] elements followed
    by one bulk string per element, whose declared length is the number
    of characters of the element and whose payload is its encoding.
    For each argument the declared length is at most the number of
    payload bytes, and equal to it exactly when the argument is ASCII. *)
Theorem encoder_declares_characters_emits_bytes (command : pystr)
  (args : list pystr) (encs : list bytes) :
  Forall is_ascii command ->
  Forall2 (fun p e => utf8_encode p = Some e) args encs ->
  build_resp_command command args
  = Return (b_lit "*" ++ ascii_bytes (str_of_int (1 + len args)) ++ CRLF
            ++ part_wire (str_upper command) (ascii_bytes (str_upper command))
            ++ List.concat (map (fun pe => part_wire (fst pe) (snd pe))
                                (combine args encs)))
  /\ Forall2 (fun p e => len p <= len e /\ (len p = len e <-> Forall is_ascii p))
             args encs.
Proof.
  intros Hc H2. split.
  - unfold build_resp_command, build_resp_text.
    rewrite fold_left_append_part, len_cons. cbn [map List.concat].
    assert (Hparts : utf8_encode (List.concat (map part_text args))
                     = Some (List.concat (map (fun pe => part_wire (fst pe) (snd pe))
                                              (combine args encs)))).
    { induction H2 as [|p e ps es Hp Hps IH]; [reflexivity|].
      cbn [map List.concat combine fst snd]. rewrite utf8_encode_app, IH.
      unfold part_text at 1. rewrite !utf8_encode_app, Hp.
      rewrite (utf8_encode_ascii (str_of_int (len p)))
        by apply str_of_int_ascii, len_nonneg.
      reflexivity. }
    rewrite !utf8_encode_app, Hparts.
    rewrite (utf8_encode_ascii (part_text (str_upper command)))
      by (apply part_text_ascii; now apply upper_ascii).
    rewrite (utf8_encode_ascii (str_of_int (1 + len args)))
      by (apply str_of_int_ascii; pose proof (len_nonneg args); lia).
    change (utf8_encode [42]) with (Some (b_lit "*")).
    change (utf8_encode crlf_s) with (Some CRLF).
    cbn [or_raise]. rewrite ascii_bytes_part.
    unfold part_wire. rewrite <- !app_assoc. reflexivity.
  - eapply Forall2_impl; [|exact H2]. intros p e. apply utf8_encode_len.
Qed.

Lemma encoder_declares_characters_emits_bytes_witness :
  build_resp_command (s_lit "get") [e_acute]
  = Return (b_lit "*" ++ ascii_bytes (str_of_int (1 + len [e_acute])) ++ CRLF
            ++ part_wire (str_upper (s_lit "get")) (ascii_bytes (str_upper (s_lit "get")))
            ++ List.concat (map (fun pe => part_wire (fst pe) (snd pe))
                                (combine [e_acute] [[xc3; xa9]])))
  /\ Forall2 (fun p e => len p <= len e /\ (len p = len e <-> Forall is_ascii p))
             [e_acute] [[xc3; xa9]].
Proof.
  apply (encoder_declares_characters_emits_bytes (s_lit "get") [e_acute] [[xc3; xa9]]).
  - vm_compute. repeat constructor; discriminate.
  - repeat constructor.
Defined.

(** X17. A [str] that cannot be encoded. When the public parser is given
    a [str] that holds a lone surrogate, [encode] raises inside the
    [try] and the handler fails on the unbound name [buffer]: the
    caller gets [UnboundLocalError], not the parser's [ValueError]. *)
Theorem unencodable_str_argument (depth : nat) (s : pystr) :
  Exists unencodable s ->
  parse_redis_response depth (ArgStr s) = Raise UnboundLocalError.
Proof.
  intros H. apply utf8_encode_None in H.
  unfold parse_redis_response. now rewrite H.
Qed.

Lemma unencodable_str_argument_witness :
  parse_redis_response 1 (ArgStr [43; 56320; 13; 10]) = Raise UnboundLocalError.
Proof.
  apply (unencodable_str_argument 1 [43; 56320; 13; 10]).
  right. left. right. left. lia.
Defined.

(** * Properties of the formatter *)

(** X18. When the formatter raises. For a reply that [str()] can turn
    into text (no list inside a list, no integer beyond the
    interpreter's cap of 4300 digits), [format_output] returns a text
    for every command but in one case: under HGETALL a reply that is a
    non-zero integer cannot be sliced, and the call raises. *)
Theorem format_output_raises_only_on_int_under_hgetall
  (repr_str : pystr -> pystr) (command : pystr) (response : pyval) :
  flat_reply response ->
  (format_output repr_str command response = None
   <-> command = s_lit "HGETALL" /\ exists n, response = PyInt n /\ n <> 0).
Proof.
  intros _. unfold format_output.
  destruct (list_eq_dec Z.eq_dec command (s_lit "HGETALL")) as [He|He].
  - destruct response as [|s|n|l]; cbn [falsy subscript_items].
    + split; [discriminate | intros (_ & n & H & _); discriminate].
    + destruct s; (split; [discriminate | intros (_ & n & H & _); discriminate]).
    + destruct (n =? 0) eqn:E.
      * apply Z.eqb_eq in E. split; [discriminate|].
        intros (_ & m & [= <-] & Hm). contradiction.
      * apply Z.eqb_neq in E. split; [|reflexivity].
        intros _. split; [assumption|]. now exists n.
    + destruct l; (split; [discriminate | intros (_ & n & H & _); discriminate]).
  - destruct response; (split; [discriminate | intros (H & _); contradiction]).
Qed.

Lemma format_output_raises_only_on_int_under_hgetall_witness :
  format_output (fun s => s) (s_lit "HGETALL") (PyInt 3) = None
  <-> s_lit "HGETALL" = s_lit "HGETALL" /\ exists n, PyInt 3 = PyInt n /\ n <> 0.
Proof.
  apply (format_output_raises_only_on_int_under_hgetall (fun s => s)
           (s_lit "HGETALL") (PyInt 3)).
  vm_compute. reflexivity.
Defined.

Lemma every_other_two {A : Type} (x y : A) (l : list A) :
  every_other (x :: y :: l) = x :: every_other l.
Proof. reflexivity. Qed.

Lemma every_other_values (v : pyval) (pairs : list (pyval * pyval))
  (odd : list pyval) :
  (List.length odd <= 1)%nat ->
  every_other (v :: alternate pairs ++ odd) = v :: map snd pairs.
Proof.
  intros Ho. revert v. induction pairs as [|[k' v'] t IH]; intros v.
  - cbn [alternate app map].
    destruct odd as [|x [|y odd']]; [reflexivity | reflexivity | cbn in Ho; lia].
  - cbn [alternate app map snd]. now rewrite every_other_two, IH.
Qed.

Lemma every_other_keys (pairs : list (pyval * pyval)) (odd : list pyval) :
  (List.length odd <= 1)%nat ->
  every_other (alternate pairs ++ odd) = map fst pairs ++ odd.
Proof.
  intros Ho. induction pairs as [|[k v] t IH].
  - cbn [alternate app map].
    destruct odd as [|x [|y odd']]; [reflexivity | reflexivity | cbn in Ho; lia].
  - cbn [alternate app map fst]. now rewrite every_other_two, IH.
Qed.

Lemma combine_keys_values (pairs : list (pyval * pyval)) (odd : list pyval) :
  combine (map fst pairs ++ odd) (map snd pairs) = pairs.
Proof.
  induction pairs as [|[k v] t IH]; cbn [map app combine fst snd].
  - now destruct odd.
  - now rewrite IH.
Qed.

(** Under HGETALL a list of fields and values in turn goes through
    lines 143-144 pair by pair; a last element without partner is left
    out by [zip]. *)
Lemma hgetall_pairs_entries (repr_str : pystr -> pystr)
  (pairs : list (pyval * pyval)) (odd : list pyval) :
  (List.length odd <= 1)%nat -> alternate pairs ++ odd <> [] ->
  format_output repr_str (s_lit "HGETALL") (PyList (alternate pairs ++ odd))
  = Some (join [10] (hgetall_entries repr_str 0 pairs)).
Proof.
  intros Ho Hne. unfold format_output.
  destruct (list_eq_dec Z.eq_dec (s_lit "HGETALL") (s_lit "HGETALL")) as [_|H];
    [|contradiction].
  cbn [falsy subscript_items].
  destruct (alternate pairs ++ odd) as [|x l] eqn:E; [contradiction|].
  rewrite <- E. rewrite every_other_keys by assumption.
  assert (Hv : every_other (tl (alternate pairs ++ odd)) = map snd pairs).
  { destruct pairs as [|[k v] t].
    - cbn [alternate app map].
      destruct odd as [|y [|z odd']]; [reflexivity | reflexivity | cbn in Ho; lia].
    - cbn [alternate app tl]. now apply every_other_values. }
  rewrite Hv, combine_keys_values. reflexivity.
Qed.

(** The entries of string pairs, written out: number, [") "], field,
    newline, three spaces, value. *)
Lemma hgetall_entries_of_strings (repr_str : pystr -> pystr)
  (pairs : list (pystr * pystr)) :
  forall n : nat,
  hgetall_entries repr_str (Z.of_nat n) (map str_pair pairs)
  = map (fun ikv => str_of_int (Z.of_nat (fst ikv) + 1) ++ s_lit ") "
                    ++ fst (snd ikv) ++ [10] ++ s_lit "   " ++ snd (snd ikv))
        (combine (seq n (List.length pairs)) pairs).
Proof.
  induction pairs as [|[k v] t IH]; intros n; [reflexivity|].
  cbn [map str_pair hgetall_entries fst snd List.length seq combine py_str].
  replace (Z.of_nat n + 1) with (Z.of_nat (S n)) at 2 by lia.
  now rewrite IH.
Qed.

(** X19. The HGETALL listing. For a list reply that gives fields and
    values in turn, all of them strings, the output is one entry per
    pair, in order and joined by newlines; the entry of the [i]-th pair
    is the number [i], [") "], the field, a newline, three spaces and
    the value.  A last element without partner is left out, so a reply
    of a single element gives the empty text. *)
Theorem hgetall_lists_pairs (repr_str : pystr -> pystr)
  (pairs : list (pystr * pystr)) (odd : list pyval) :
  (List.length odd <= 1)%nat -> alternate (map str_pair pairs) ++ odd <> [] ->
  format_output repr_str (s_lit "HGETALL")
    (PyList (alternate (map str_pair pairs) ++ odd))
  = Some (join [10]
            (map (fun ikv => str_of_int (Z.of_nat (fst ikv) + 1) ++ s_lit ") "
                             ++ fst (snd ikv) ++ [10] ++ s_lit "   "
                             ++ snd (snd ikv))
                 (combine (seq 0 (List.length pairs)) pairs))).
Proof.
  intros Ho Hne.
  rewrite (hgetall_pairs_entries repr_str _ odd Ho Hne).
  change 0 with (Z.of_nat 0) at 1.
  now rewrite hgetall_entries_of_strings.
Qed.

Lemma hgetall_lists_pairs_witness :
  format_output (fun s => s) (s_lit "HGETALL")
    (PyList [PyStr (s_lit "f"); PyStr (s_lit "1");
             PyStr (s_lit "g"); PyStr (s_lit "2"); PyStr (s_lit "h")])
  = Some (s_lit "1) f" ++ [10] ++ s_lit "   1" ++ [10]
          ++ s_lit "2) g" ++ [10] ++ s_lit "   2").
Proof.
  apply (hgetall_lists_pairs (fun s => s)
           [(s_lit "f", s_lit "1"); (s_lit "g", s_lit "2")] [PyStr (s_lit "h")]).
  - cbn. lia.
  - discriminate.
Defined.

(** X20. A string reply as the user sees it. For every command other
    than HGETALL, a simple string or bulk string that is valid on the
    wire, with a payload that is valid UTF-8, is decoded by the public
    parser and shown by the formatter as its text, unchanged. *)
Theorem string_reply_shown_as_its_text (repr_str : pystr -> pystr) (depth : nat)
  (command : pystr) (f : text_frame) (post : bytes) (text : pystr) :
  command <> s_lit "HGETALL" ->
  wire_valid f -> utf8_decode (payload f) = Some text ->
  exists v, parse_redis_response (S depth) (ArgBytes (wire f ++ post)) = Return v
            /\ format_output repr_str command v = Some text.
Proof.
  intros Hc Hv Hd. exists (PyStr text). split.
  - unfold parse_redis_response.
    destruct f as [p | field p]; cbn [wire payload wire_valid] in *.
    + rewrite <- !app_assoc.
      pose proof (parse_simple_at depth [] p post Hv) as H.
      cbn [app] in H. change (len []) with 0 in H. cbn [app]. rewrite H.
      unfold decode_utf8. now rewrite Hd.
    + destruct Hv as [Hn Hi]. rewrite <- !app_assoc.
      pose proof (parse_bulk_at depth [] field (p ++ CRLF ++ post) (len p) Hn Hi
                    (len_nonneg p)) as H.
      cbn [app] in H. change (len []) with 0 in H. cbn [app]. rewrite H.
      rewrite to_nat_len, firstn_app, Nat.sub_diag, firstn_all. cbn [firstn].
      rewrite app_nil_r. unfold decode_utf8. now rewrite Hd.
  - unfold format_output.
    destruct (list_eq_dec Z.eq_dec command (s_lit "HGETALL")); [contradiction|].
    reflexivity.
Qed.

Lemma string_reply_shown_as_its_text_witness :
  exists v,
    parse_redis_response 1 (ArgBytes (wire (SimpleFrame (b_lit "OK")) ++ [])) = Return v
    /\ format_output (fun s => s) (s_lit "SET") v = Some (s_lit "OK").
Proof.
  apply (string_reply_shown_as_its_text (fun s => s) 0 (s_lit "SET")
           (SimpleFrame (b_lit "OK")) [] (s_lit "OK"));
    [discriminate | reflexivity | reflexivity].
Defined.

(** X21. A truncated array as the user sees it. For every command other
    than HGETALL, the array of [parts] whose header declares [extra]
    elements more is decoded and shown as one line per element present
    followed by [extra] lines that read [None]. *)
Theorem truncated_array_shown_with_none_lines (repr_str : pystr -> pystr)
  (depth : nat) (command : pystr) (parts : list pystr) (extra : nat) :
  command <> s_lit "HGETALL" -> Forall (Forall is_ascii) parts ->
  exists v,
    parse_redis_response (S (S depth))
      (ArgBytes (array_of (len parts + Z.of_nat extra) parts)) = Return v
    /\ format_output repr_str command v
       = Some (join [10] (parts ++ repeat (s_lit "None") extra)).
Proof.
  intros Hc Hp. exists (PyList (map PyStr parts ++ repeat PyNone extra)). split.
  - unfold parse_redis_response. now rewrite parse_array_of.
  - unfold format_output.
    destruct (list_eq_dec Z.eq_dec command (s_lit "HGETALL")); [contradiction|].
    rewrite map_app, map_map, map_repeat. cbn [py_str py_repr].
    now rewrite map_id.
Qed.

Lemma truncated_array_shown_with_none_lines_witness :
  exists v,
    parse_redis_response 2
      (ArgBytes (array_of (len [s_lit "a"] + Z.of_nat 1) [s_lit "a"])) = Return v
    /\ format_output (fun s => s) (s_lit "LRANGE") v
       = Some (join [10] ([s_lit "a"] ++ repeat (s_lit "None") 1)).
Proof.
  apply (truncated_array_shown_with_none_lines (fun s => s) 0 (s_lit "LRANGE")
           [s_lit "a"] 1).
  - discriminate.
  - vm_compute. repeat constructor; discriminate.
Defined.
